(** * Interactive-Table: the sort and selection engine of [DataTable.tsx]

    A shallow embedding of the state logic of the [DataTable] component
    (src/components/DataTable.tsx): the row identity resolver [getRowKey],
    the comparator handed to [Array.prototype.sort], the memoised
    [sortedData], and the three event handlers [handleSort],
    [handleRowSelect] and [handleSelectAll].

    React's [useState] pairs are modelled by explicit state passing: a
    handler takes the props and the state of the render it was created in
    and returns the next state together with what it passed to the
    [onRowSelect] callback.  The host's [Array.prototype.sort],
    [localeCompare] and [String(...)] are parameters of the engine; of the
    sort only what ECMAScript requires is assumed ([ConformingSort]). *)

From Stdlib Require Import ZArith Lia.
From stdpp Require Import base decidable countable option list gmap fin_sets strings pretty.
From stdpp Require Import sorting.

Local Open Scope string_scope.
Local Open Scope Z_scope.

(* stdpp's solvers clear hypotheses that are sometimes already gone. *)
#[local] Set Warnings "-clear-no-such-hyp".

(** ** Cell values and rows *)

(** The cell values the comparator tells apart ([record[column.dataIndex]]
    has type [any]).  A finite number is taken at an integer value; the
    numbers [NaN], [Infinity] and [-Infinity] have constructors of their
    own.  A valid [Date] is its [getTime()] instant, and [VInvalidDate] is
    a [Date] whose [getTime()] is [NaN]. *)
Inductive value : Type :=
  | VUndefined
  | VNull
  | VString (s : string)
  | VNumber (n : Z)
  | VNaN
  | VInfinity
  | VNegInfinity
  | VDate (t : Z)
  | VInvalidDate
  | VBool (b : bool).

#[global] Instance value_eq_dec : EqDecision value.
Proof. solve_decision. Defined.

Definition value_encode (v : value)
    : unit + (unit + (string + (Z + (Z + (bool + nat))))) :=
  match v with
  | VUndefined => inl tt
  | VNull => inr (inl tt)
  | VString s => inr (inr (inl s))
  | VNumber n => inr (inr (inr (inl n)))
  | VDate t => inr (inr (inr (inr (inl t))))
  | VBool b => inr (inr (inr (inr (inr (inl b)))))
  | VNaN => inr (inr (inr (inr (inr (inr 0%nat)))))
  | VInfinity => inr (inr (inr (inr (inr (inr 1%nat)))))
  | VNegInfinity => inr (inr (inr (inr (inr (inr 2%nat)))))
  | VInvalidDate => inr (inr (inr (inr (inr (inr 3%nat)))))
  end.

Definition value_decode (e : unit + (unit + (string + (Z + (Z + (bool + nat))))))
    : value :=
  match e with
  | inl _ => VUndefined
  | inr (inl _) => VNull
  | inr (inr (inl s)) => VString s
  | inr (inr (inr (inl n))) => VNumber n
  | inr (inr (inr (inr (inl t)))) => VDate t
  | inr (inr (inr (inr (inr (inl b))))) => VBool b
  | inr (inr (inr (inr (inr (inr 0%nat))))) => VNaN
  | inr (inr (inr (inr (inr (inr 1%nat))))) => VInfinity
  | inr (inr (inr (inr (inr (inr 2%nat))))) => VNegInfinity
  | inr (inr (inr (inr (inr (inr _))))) => VInvalidDate
  end.

#[global] Instance value_countable : Countable value.
Proof.
  apply (inj_countable' value_encode value_decode).
  intros v. destruct v; reflexivity.
Defined.

(** [v == null]: true of [null] and of [undefined]. *)
Definition isNullish (v : value) : bool :=
  match v with
  | VUndefined | VNull => true
  | _ => false
  end.

(** [T extends Record<string, any>]: a row is a finite map from field names
    to values. *)
Abbreviation row := (gmap string value).

(** [record[field]]: reading a field the record lacks gives [undefined]. *)
Definition getField (record : row) (field : string) : value :=
  default VUndefined (record !! field).

(** ** Props and state *)

Module Column.
(** [interface Column<T>]; an omitted [sortable] is [false] under the
    [!column.sortable] test, the only place it is read. [width] and
    [render] belong to the presentation. *)
Record t : Type := mk {
  key : string;
  title : string;
  dataIndex : string;
  sortable : bool
}.
End Column.

Inductive SortDirection : Type := asc | desc.

#[global] Instance SortDirection_eq_dec : EqDecision SortDirection.
Proof. solve_decision. Defined.

Module SortState.
(** [interface SortState]; [null] is [None] in both fields. *)
Record t : Type := mk {
  key : option string;
  direction : option SortDirection
}.
End SortState.

#[global] Instance SortState_eq_dec : EqDecision SortState.t.
Proof. solve_decision. Defined.

(** The [rowKey] prop: a field name (default ['id']) or a function. *)
Inductive RowKey : Type :=
  | RowKeyField (field : string)
  | RowKeyFn (fn : row → value).

(** [interface DataTableProps<T>], without the presentation props.
    [onRowSelect] records whether the callback was supplied. *)
Record DataTableProps : Type := mkProps {
  data : list row;
  columns : list Column.t;
  selectable : bool;
  onRowSelect : bool;
  rowKey : RowKey
}.

(** The two [useState] cells of the component. *)
Record State : Type := mkState {
  sortState : SortState.t;
  selectedRows : gset value
}.

(** [useState] initial values. *)
Definition initialSortState : SortState.t := SortState.mk None None.
Definition initialState : State := mkState initialSortState ∅.

(** ** Row identity *)

(** [getRowKey]: [rowKey(record)] for a function, otherwise
    [record[rowKey] ?? index]. *)
Definition getRowKey (props : DataTableProps) (record : row) (index : nat) : value :=
  match rowKey props with
  | RowKeyFn fn => fn record
  | RowKeyField field =>
      match getField record field with
      | VUndefined | VNull => VNumber (Z.of_nat index)
      | v => v
      end
  end.

(** [data.map((record, index) => getRowKey(record, index))]. *)
Definition rowKeys (props : DataTableProps) : list value :=
  imap (λ index record, getRowKey props record index) (data props).

(** ** Host built-ins *)

(** [Array.prototype.filter] with its [(element, index)] callback. *)
Fixpoint filterFrom {A : Type} (p : A → nat → bool) (index : nat) (l : list A) : list A :=
  match l with
  | [] => []
  | x :: l' =>
      if p x index then x :: filterFrom p (S index) l'
      else filterFrom p (S index) l'
  end.

Definition arrayFilter {A : Type} (p : A → nat → bool) (l : list A) : list A :=
  filterFrom p 0%nat l.

(** A JavaScript number as a comparator returns it: a difference of two
    numbers or instants, or a [localeCompare] result. *)
Inductive JsNumber : Type :=
  | Finite (z : Z)
  | PosInfinity
  | NegInfinity
  | NaN.

#[global] Instance JsNumber_eq_dec : EqDecision JsNumber.
Proof. solve_decision. Defined.

(** [a - b] on numbers. *)
Definition jsSub (a b : JsNumber) : JsNumber :=
  match a, b with
  | NaN, _ | _, NaN => NaN
  | Finite x, Finite y => Finite (x - y)
  | PosInfinity, PosInfinity => NaN
  | NegInfinity, NegInfinity => NaN
  | PosInfinity, _ => PosInfinity
  | NegInfinity, _ => NegInfinity
  | Finite _, PosInfinity => NegInfinity
  | Finite _, NegInfinity => PosInfinity
  end.

(** What [Array.prototype.sort] reads of a comparator's result (the
    abstract operation SortCompare): [NaN] is read as [+0], and of any
    other number the sign decides. *)
Definition sortCompare (v : JsNumber) : Z :=
  match v with
  | Finite z => z
  | PosInfinity => 1
  | NegInfinity => -1
  | NaN => 0
  end.

(** A stable insertion sort by an order [order a b <= 0] for "[a] not
    after [b]": an element goes in front of the first element it is not
    after, starting from the right end of the array. *)
Fixpoint sortInsert {A : Type} (order : A → A → Z) (x : A) (l : list A) : list A :=
  match l with
  | [] => [x]
  | y :: l' =>
      if order x y <=? 0 then x :: y :: l'
      else y :: sortInsert order x l'
  end.

Definition insertionSort {A : Type} (order : A → A → Z) (l : list A) : list A :=
  foldr (sortInsert order) [] l.

(** A reference [sort(comparefn)]: the stable insertion sort by what
    SortCompare reads of the comparator.  It meets the contract
    [ConformingSort] below and serves to run the engine on concrete
    tables. *)
Definition arraySort {A : Type} (comparefn : A → A → JsNumber) (l : list A)
    : list A :=
  insertionSort (λ a b, sortCompare (comparefn a b)) l.

(** The requirements of ECMAScript on three values [a], [b], [c] for
    [comparefn] to be a consistent comparison function: the result is never
    [NaN]; [a] equals itself; equality is symmetric and transitive; "before"
    and "after" are transitive. *)
Definition ConsistentAt {A : Type} (comparefn : A → A → JsNumber) (a b c : A)
    : Prop :=
  comparefn a b ≠ NaN
  ∧ sortCompare (comparefn a a) = 0
  ∧ (sortCompare (comparefn a b) = 0 → sortCompare (comparefn b a) = 0)
  ∧ (sortCompare (comparefn a b) = 0 → sortCompare (comparefn b c) = 0 →
     sortCompare (comparefn a c) = 0)
  ∧ (sortCompare (comparefn a b) < 0 → sortCompare (comparefn b c) < 0 →
     sortCompare (comparefn a c) < 0)
  ∧ (sortCompare (comparefn a b) > 0 → sortCompare (comparefn b c) > 0 →
     sortCompare (comparefn a c) > 0).

(** [comparefn] is a consistent comparison function for the elements of
    [l]. *)
Definition Consistent {A : Type} (comparefn : A → A → JsNumber) (l : list A)
    : Prop :=
  Forall (λ a, Forall (λ b, Forall (λ c, ConsistentAt comparefn a b c) l) l) l.

#[global] Instance ConsistentAt_dec {A : Type} (comparefn : A → A → JsNumber)
    (a b c : A) : Decision (ConsistentAt comparefn a b c).
Proof. unfold ConsistentAt. apply _. Defined.

#[global] Instance Consistent_dec {A : Type} (comparefn : A → A → JsNumber)
    (l : list A) : Decision (Consistent comparefn l).
Proof. unfold Consistent. apply _. Defined.

(** [Array.prototype.find]. *)
Fixpoint arrayFind {A : Type} (p : A → bool) (l : list A) : option A :=
  match l with
  | [] => None
  | x :: l' => if p x then Some x else arrayFind p l'
  end.

(** [!sortState.key]: [null] and the empty string are falsy. *)
Definition keyFalsy (k : option string) : bool :=
  match k with
  | None => true
  | Some s => bool_decide (s = "")
  end.

(** [col.key === sortState.key]. *)
Definition keyMatches (colKey : string) (k : option string) : bool :=
  bool_decide (k = Some colKey).

Definition isAsc (direction : option SortDirection) : bool :=
  bool_decide (direction = Some asc).

(** [typeof v === 'string'], with the string. *)
Definition asString (v : value) : option string :=
  match v with
  | VString s => Some s
  | _ => None
  end.

(** [typeof v === 'number'], with the number. *)
Definition asNumber (v : value) : option JsNumber :=
  match v with
  | VNumber n => Some (Finite n)
  | VNaN => Some NaN
  | VInfinity => Some PosInfinity
  | VNegInfinity => Some NegInfinity
  | _ => None
  end.

(** [v instanceof Date], with [v.getTime()]. *)
Definition asTime (v : value) : option JsNumber :=
  match v with
  | VDate t => Some (Finite t)
  | VInvalidDate => Some NaN
  | _ => None
  end.

(** [Array.prototype.sort(comparefn)] as the table calls it, on a copy of
    the rows.  The engine's algorithm is not the program's; ECMAScript
    fixes this much of it.  The result is always a rearrangement of the
    array.  When [comparefn] is a consistent comparison function for the
    elements, no element stands before one that [comparefn] puts before
    it, and elements that compare equal keep their order (the sort is
    stable).  For any other comparator the order is left to the
    engine. *)
Record ConformingSort
    (sort : (row → row → JsNumber) → list row → list row) : Prop := {
  conforming_Permutation comparefn l : sort comparefn l ≡ₚ l;
  conforming_sorted comparefn l :
    Consistent comparefn l →
    StronglySorted (λ a b, sortCompare (comparefn a b) ≤ 0) (sort comparefn l);
  conforming_stable comparefn l :
    Consistent comparefn l →
    ∀ x, x ∈ l →
         filter (λ y, sortCompare (comparefn x y) = 0) (sort comparefn l)
         = filter (λ y, sortCompare (comparefn x y) = 0) l
}.

(** A second sort meeting the contract: on a comparator that is not
    consistent for the array it reverses the array, as an engine does that
    takes the array for one descending run. *)
Definition reversingSort (comparefn : row → row → JsNumber) (l : list row)
    : list row :=
  if decide (Consistent comparefn l) then arraySort comparefn l
  else reverse l.

Section Engine.

(** [Array.prototype.sort], [String.prototype.localeCompare] and the
    [String(...)] conversion are the host's; the engine is stated over
    them. *)
Variable sort : (row → row → JsNumber) → list row → list row.
Variable localeCompare : string → string → Z.
Variable toStr : value → string.

(** ** Comparator *)

(** The callback of [sort] in [sortedData], on the two cell values
    [a[column.dataIndex]] and [b[column.dataIndex]]. *)
Definition compareValues (direction : option SortDirection)
    (aValue bValue : value) : JsNumber :=
  if isNullish aValue && isNullish bValue then Finite 0
  else if isNullish aValue then
    (if isAsc direction then Finite (-1) else Finite 1)
  else if isNullish bValue then
    (if isAsc direction then Finite 1 else Finite (-1))
  else
    match asString aValue, asString bValue with
    | Some aS, Some bS =>
        let comparison := localeCompare aS bS in
        if isAsc direction then Finite comparison else Finite (- comparison)
    | _, _ =>
        match asNumber aValue, asNumber bValue with
        | Some aN, Some bN =>
            if isAsc direction then jsSub aN bN else jsSub bN aN
        | _, _ =>
            match asTime aValue, asTime bValue with
            | Some aT, Some bT =>
                if isAsc direction then jsSub aT bT else jsSub bT aT
            | _, _ =>
                let aStr := toStr aValue in
                let bStr := toStr bValue in
                let comparison := localeCompare aStr bStr in
                if isAsc direction then Finite comparison
                else Finite (- comparison)
            end
        end
    end.

Definition compareRows (column : Column.t) (direction : option SortDirection)
    (a b : row) : JsNumber :=
  compareValues direction
    (getField a (Column.dataIndex column))
    (getField b (Column.dataIndex column)).

(** ** Derived view *)

(** The [useMemo] body of [sortedData]. *)
Definition sortedData (props : DataTableProps) (st : SortState.t) : list row :=
  if keyFalsy (SortState.key st) || bool_decide (SortState.direction st = None)
  then data props
  else
    match arrayFind (λ col, keyMatches (Column.key col) (SortState.key st))
                    (columns props) with
    | None => data props
    | Some column =>
        sort (compareRows column (SortState.direction st)) (data props)
    end.

End Engine.

(** ** Sort handler *)

(** The updater passed to [setSortState]. *)
Definition nextSortState (column : Column.t) (prev : SortState.t) : SortState.t :=
  if keyMatches (Column.key column) (SortState.key prev) then
    let newDirection :=
      match SortState.direction prev with
      | Some asc => Some desc
      | Some desc => None
      | None => Some asc
      end in
    SortState.mk
      (match newDirection with Some _ => Some (Column.key column) | None => None end)
      newDirection
  else SortState.mk (Some (Column.key column)) (Some asc).

Definition handleSort (column : Column.t) (st : State) : State :=
  if negb (Column.sortable column) then st
  else mkState (nextSortState column (sortState st)) (selectedRows st).

(** ** Selection handlers *)

(** What a handler passed to [onRowSelect]: [None] when the callback is
    absent. *)
Definition emit (props : DataTableProps) (rows : list row) : option (list row) :=
  if onRowSelect props then Some rows else None.

Definition toggleKey (key : value) (selected : gset value) : gset value :=
  if bool_decide (key ∈ selected) then selected ∖ {[ key ]}
  else selected ∪ {[ key ]}.

(** [handleRowSelect(rowKey, record)]; [record] is not read. *)
Definition handleRowSelect (props : DataTableProps) (key : value) (record : row)
    (st : State) : State * option (list row) :=
  let newSelectedRows := toggleKey key (selectedRows st) in
  let selectedRecords :=
    arrayFilter
      (λ record index, bool_decide (getRowKey props record index ∈ newSelectedRows))
      (data props) in
  (mkState (sortState st) newSelectedRows, emit props selectedRecords).

(** [new Set(data.map((record, index) => getRowKey(record, index)))]. *)
Definition allKeys (props : DataTableProps) : gset value :=
  list_to_set (rowKeys props).

Definition handleSelectAll (props : DataTableProps) (st : State)
    : State * option (list row) :=
  if (size (selectedRows st) =? length (data props))%nat then
    (mkState (sortState st) ∅, emit props [])
  else
    (mkState (sortState st) (allKeys props), emit props (data props)).

Definition isAllSelected (props : DataTableProps) (st : State) : bool :=
  (0 <? length (data props))%nat
  && (size (selectedRows st) =? length (data props))%nat.

Definition isIndeterminate (props : DataTableProps) (st : State) : bool :=
  (0 <? size (selectedRows st))%nat
  && (size (selectedRows st) <? length (data props))%nat.

(** ** Event sequences *)

Inductive Event : Type :=
  | ClickHeader (column : Column.t)
  | ClickRow (key : value) (record : row)
  | ClickSelectAll.

(** One event, handled by the render that has [props] and [st]. *)
Definition step (props : DataTableProps) (st : State) (ev : Event) : State :=
  match ev with
  | ClickHeader column => handleSort column st
  | ClickRow key record => (handleRowSelect props key record st).1
  | ClickSelectAll => (handleSelectAll props st).1
  end.

(** Events in the order delivered, each with the props of its render (the
    host may supply a new data set between two events). *)
Definition run (st : State) (evs : list (DataTableProps * Event)) : State :=
  foldl (λ st pe, step pe.1 st pe.2) st evs.

Definition runWith (props : DataTableProps) (st : State) (evs : list Event) : State :=
  run st ((λ ev, (props, ev)) <$> evs).

(** States the component can be in: the initial render, then any events,
    each under whatever props the host supplied for that render. *)
Inductive Reachable : State → Prop :=
  | Reachable_init : Reachable initialState
  | Reachable_step props st ev :
      Reachable st → Reachable (step props st ev).

(** The three shapes of a sort state: nothing active, or one column active
    in one of the two directions. *)
Definition sortNone : SortState.t := SortState.mk None None.
Definition sortAsc (k : string) : SortState.t := SortState.mk (Some k) (Some asc).
Definition sortDesc (k : string) : SortState.t := SortState.mk (Some k) (Some desc).

Inductive SortShape : SortState.t → Prop :=
  | SortShape_none : SortShape sortNone
  | SortShape_asc k : SortShape (sortAsc k)
  | SortShape_desc k : SortShape (sortDesc k).

(** A row click, when it names the identity of a row of the data set. *)
Definition targetsCurrentRow (props : DataTableProps) (ev : Event) : Prop :=
  match ev with
  | ClickRow key _ => key ∈ rowKeys props
  | _ => True
  end.

Definition isHeaderClick (pe : DataTableProps * Event) : bool :=
  match pe.2 with
  | ClickHeader _ => true
  | _ => false
  end.

(** ** Sample inputs *)

(** A host to run the engine on concrete tables: code-unit string order
    for [localeCompare], and [String(...)] as it is on primitives (a date
    stands for its instant). *)
Definition codeUnitCompare (a b : string) : Z :=
  match String.compare a b with
  | Lt => -1
  | Eq => 0
  | Gt => 1
  end.

Definition primitiveToStr (v : value) : string :=
  match v with
  | VUndefined => "undefined"
  | VNull => "null"
  | VString s => s
  | VNumber n => pretty n
  | VNaN => "NaN"
  | VInfinity => "Infinity"
  | VNegInfinity => "-Infinity"
  | VDate t => pretty t
  | VInvalidDate => "Invalid Date"
  | VBool b => if b then "true" else "false"
  end.

(** [{id, name, age}] rows as in the component's test file. *)
Definition user (id : Z) (name : string) (age : Z) : row :=
  {[ "id" := VNumber id; "name" := VString name; "age" := VNumber age ]}.

Definition mockUsers : list row :=
  [user 1 "John Doe" 30; user 2 "Jane Smith" 25; user 3 "Bob Johnson" 35].

Definition nameColumn : Column.t := Column.mk "name" "Name" "name" true.
Definition ageColumn : Column.t := Column.mk "age" "Age" "age" true.
Definition statusColumn : Column.t := Column.mk "status" "Status" "status" false.

Definition mockColumns : list Column.t := [nameColumn; ageColumn; statusColumn].

Definition tableOf (rows : list row) : DataTableProps :=
  mkProps rows mockColumns true true (RowKeyField "id").

Definition mockProps : DataTableProps := tableOf mockUsers.

(** A table whose two rows share the age 30, and one with an absent age. *)
Definition tiedUsers : list row :=
  [user 1 "John Doe" 30; user 2 "Jane Smith" 25; user 3 "Bob Johnson" 30].

(** The data set after the host dropped the rows 2 and 3. *)
Definition shrunkProps : DataTableProps := tableOf [user 1 "John Doe" 30].

(** Two rows left, after the host dropped row 3. *)
Definition twoProps : DataTableProps :=
  tableOf [user 1 "John Doe" 30; user 2 "Jane Smith" 25].

(** A column that mixes numbers and a string: the comparator puts 9 before
    10 (as numbers), 10 before "2" and "2" before 9 (as strings). *)
Definition mixedUsers : list row :=
  [user 0 "John Doe" 10; user 1 "Jane Smith" 9;
   {[ "id" := VNumber 2; "name" := VString "Bob Johnson"; "age" := VString "2" ]};
   user 3 "Alice Brown" 10].

(** A column with a [NaN] between two numbers. *)
Definition nanUsers : list row :=
  [user 1 "John Doe" 3;
   {[ "id" := VNumber 2; "name" := VString "Jane Smith"; "age" := VNaN ]};
   user 3 "Bob Johnson" 1].

(** A row without an age, and a table with two such rows. *)
Definition guest (id : Z) (name : string) : row :=
  {[ "id" := VNumber id; "name" := VString name ]}.

Definition gappyUsers : list row :=
  [user 1 "John Doe" 30; guest 2 "Jane Smith"; user 3 "Bob Johnson" 25;
   guest 4 "Alice Brown"].

(** Rows without an [id]: their identity falls back to the position. *)
Definition anonymous (name : string) (age : Z) : row :=
  {[ "name" := VString name; "age" := VNumber age ]}.

Definition anonymousUsers : list row :=
  [anonymous "John Doe" 30; anonymous "Jane Smith" 25; anonymous "Bob Johnson" 35].

(** ** The input field of [InputField.tsx] *)

Module InputField.

Inductive InputType : Type := text | password | email | number.

#[global] Instance InputType_eq_dec : EqDecision InputType.
Proof. solve_decision. Defined.

(** [interface InputFieldProps], the props the component's logic reads, with
    the defaults of the destructuring applied ([value = empty string], the
    flags [false]).  [onChange] and [onClear] record whether the callback
    was supplied; an omitted [helperText] or [errorMessage] is [None]. *)
Record Props : Type := mkProps {
  value : string;
  onChange : bool;
  helperText : option string;
  errorMessage : option string;
  disabled : bool;
  loading : bool;
  type : InputType;
  showClearButton : bool;
  showPasswordToggle : bool;
  onClear : bool
}.

(** The two [useState] cells. *)
Record State : Type := mkState {
  showPassword : bool;
  isFocused : bool
}.

(** A string in a condition: the empty string is falsy. *)
Definition truthy (s : string) : bool := negb (bool_decide (s = "")).

(** An optional string in a condition: [undefined] is falsy too. *)
Definition truthyOpt (o : option string) : bool :=
  match o with
  | Some s => truthy s
  | None => false
  end.

(** [a || b] on optional strings. *)
Definition orElse (a b : option string) : option string :=
  if truthyOpt a then a else b.

(** [const inputType]. *)
Definition inputType (props : Props) (st : State) : InputType :=
  if bool_decide (type props = password) && showPassword st then text
  else type props.

(** The [disabled] attribute of the [<input>]. *)
Definition inputDisabled (props : Props) : bool :=
  disabled props || loading props.

(** Whether the [<input>] gets the [pr-10] class. *)
Definition paddedRight (props : Props) : bool :=
  (showClearButton props || showPasswordToggle props || loading props)
  && truthy (value props).

Definition spinnerShown (props : Props) : bool := loading props.

Definition clearButtonShown (props : Props) : bool :=
  negb (loading props) && showClearButton props && truthy (value props)
  && negb (disabled props).

Definition passwordToggleShown (props : Props) : bool :=
  negb (loading props) && showPasswordToggle props
  && bool_decide (type props = password) && negb (disabled props).

(** The click handler of the password toggle. *)
Definition togglePassword (st : State) : State :=
  mkState (negb (showPassword st)) (isFocused st).

(** The paragraph under the input: [None] when it is not rendered,
    otherwise its text and whether it carries the error colour. *)
Definition message (props : Props) : option (option string * bool) :=
  if truthyOpt (orElse (helperText props) (errorMessage props)) then
    Some (orElse (errorMessage props) (helperText props),
          truthyOpt (errorMessage props))
  else None.

(** A callback invoked by [handleClear]: [onClear()] or [onChange] with the
    [target.value] of the event it is given. *)
Inductive Call : Type :=
  | CallOnClear
  | CallOnChange (targetValue : string).

Definition handleClear (props : Props) : list Call :=
  if onClear props then [CallOnClear]
  else if onChange props then [CallOnChange ""]
  else [].

End InputField.

(** ** Header and row rendering *)

Inductive AriaSort : Type := ariaAscending | ariaDescending | ariaNone.

(** The [aria-sort] attribute of a column header; [None] is [undefined]. *)
Definition ariaSort (column : Column.t) (st : SortState.t) : option AriaSort :=
  if keyMatches (Column.key column) (SortState.key st) then
    if isAsc (SortState.direction st) then Some ariaAscending
    else Some ariaDescending
  else if Column.sortable column then Some ariaNone
  else None.

(** Which of the two chevrons [renderSortIcon] paints in the active
    colour. *)
Record SortIcon : Type := mkSortIcon {
  upActive : bool;
  downActive : bool
}.

(** [renderSortIcon]: [None] is the [null] of a column that is not
    sortable. *)
Definition renderSortIcon (column : Column.t) (st : SortState.t) : option SortIcon :=
  if negb (Column.sortable column) then None
  else
    let isActive := keyMatches (Column.key column) (SortState.key st) in
    let direction := if isActive then SortState.direction st else None in
    Some (mkSortIcon
            (isActive && bool_decide (direction = Some asc))
            (isActive && bool_decide (direction = Some desc))).

(** One body row as the [sortedData.map] callback builds it: the key it is
    rendered under, the record, and whether its checkbox is checked.  A
    click on the checkbox calls [handleRowSelect(key, record)]. *)
Record RowView : Type := mkRowView {
  viewKey : value;
  viewRecord : row;
  isSelected : bool
}.

Definition renderRow (props : DataTableProps) (st : State) (index : nat)
    (record : row) : RowView :=
  let key := getRowKey props record index in
  mkRowView key record (bool_decide (key ∈ selectedRows st)).

Definition renderRows (sort : (row → row → JsNumber) → list row → list row)
    (localeCompare : string → string → Z) (toStr : value → string)
    (props : DataTableProps) (st : State) : list RowView :=
  imap (renderRow props st)
       (sortedData sort localeCompare toStr props (sortState st)).

(** The click on the checkbox of a rendered row. *)
Definition clickRowView (view : RowView) : Event :=
  ClickRow (viewKey view) (viewRecord view).

(** ** Properties of tables *)

(** The cell of a row under a column. *)
Definition cellOf (column : Column.t) (record : row) : value :=
  getField record (Column.dataIndex column).

(** The number in a cell, if the cell holds one. *)
Definition numberCell (column : Column.t) (record : row) : option Z :=
  match cellOf column record with
  | VNumber n => Some n
  | _ => None
  end.

(** The kinds of column whose present cells the comparator compares like
    with like. *)
Inductive CellKind : Type := NumberCells | DateCells | StringCells.

(** A cell of a column of one kind: absent, or present and a finite
    number, a valid date or a string according to the kind. *)
Definition uniformCell (kind : CellKind) (v : value) : Prop :=
  isNullish v = true
  ∨ match kind with
    | NumberCells => ∃ n, v = VNumber n
    | DateCells => ∃ t, v = VDate t
    | StringCells => ∃ s, v = VString s
    end.

(** The order of two cells of a column of one kind, given the order [c] of
    their present values: [None] is an absent cell. *)
Definition keyedCompare {K : Type} (c : K → K → Z)
    (direction : option SortDirection) (a b : option K) : Z :=
  match a, b with
  | None, None => 0
  | None, Some _ => if isAsc direction then -1 else 1
  | Some _, None => if isAsc direction then 1 else -1
  | Some x, Some y => if isAsc direction then c x y else - c x y
  end.

Definition dateCell (column : Column.t) (record : row) : option Z :=
  match cellOf column record with
  | VDate t => Some t
  | _ => None
  end.

Definition stringCell (column : Column.t) (record : row) : option string :=
  match cellOf column record with
  | VString s => Some s
  | _ => None
  end.

(** Order of two rows by the numbers in their cells. *)
Definition numberLe (column : Column.t) (a b : row) : Prop :=
  ∃ n m, numberCell column a = Some n ∧ numberCell column b = Some m ∧ n ≤ m.

(** A row whose identity does not depend on where it stands: [rowKey] is a
    function, or the row has a value in the [rowKey] field. *)
Definition hasOwnKey (props : DataTableProps) (record : row) : Prop :=
  match rowKey props with
  | RowKeyFn _ => True
  | RowKeyField field => isNullish (getField record field) = false
  end.

(** The sort state names a column of the table and a direction, so that
    [sortedData] sorts. *)
Definition sortsBy (props : DataTableProps) (st : SortState.t)
    (column : Column.t) (d : SortDirection) : Prop :=
  keyFalsy (SortState.key st) = false
  ∧ SortState.direction st = Some d
  ∧ arrayFind (λ col, keyMatches (Column.key col) (SortState.key st))
              (columns props) = Some column.

(** How often a key is toggled by the row clicks of a run. *)
Fixpoint toggleCount (key : value) (evs : list Event) : nat :=
  match evs with
  | [] => 0%nat
  | ClickRow k _ :: evs' =>
      if bool_decide (k = key) then S (toggleCount key evs')
      else toggleCount key evs'
  | _ :: evs' => toggleCount key evs'
  end.

(** * Sort engine *)

Lemma keyMatches_true colKey k : keyMatches colKey k = true ↔ k = Some colKey.
Proof. unfold keyMatches. apply bool_decide_eq_true. Qed.

Lemma keyMatches_false colKey k : keyMatches colKey k = false ↔ k ≠ Some colKey.
Proof. unfold keyMatches. apply bool_decide_eq_false. Qed.

Lemma nextSortState_none column :
  nextSortState column sortNone = sortAsc (Column.key column).
Proof. reflexivity. Qed.

Lemma nextSortState_asc column :
  nextSortState column (sortAsc (Column.key column)) = sortDesc (Column.key column).
Proof.
  unfold nextSortState, sortAsc; simpl.
  by rewrite (proj2 (keyMatches_true _ _) eq_refl).
Qed.

Lemma nextSortState_desc column :
  nextSortState column (sortDesc (Column.key column)) = sortNone.
Proof.
  unfold nextSortState, sortDesc; simpl.
  by rewrite (proj2 (keyMatches_true _ _) eq_refl).
Qed.

Lemma nextSortState_other column prev :
  SortState.key prev ≠ Some (Column.key column) →
  nextSortState column prev = sortAsc (Column.key column).
Proof.
  intros Hne. unfold nextSortState.
  by rewrite (proj2 (keyMatches_false _ _) Hne).
Qed.

Lemma nextSortState_shape column prev :
  SortShape prev → SortShape (nextSortState column prev).
Proof.
  intros Hprev.
  destruct (decide (SortState.key prev = Some (Column.key column))) as [Heq|Hne].
  - destruct Hprev as [|k|k]; simpl in Heq.
    + discriminate.
    + injection Heq as ->. rewrite nextSortState_asc. constructor.
    + injection Heq as ->. rewrite nextSortState_desc. constructor.
  - rewrite nextSortState_other by done. constructor.
Qed.

Lemma handleSort_sortable column st :
  Column.sortable column = true →
  sortState (handleSort column st) = nextSortState column (sortState st).
Proof. intros Hs. unfold handleSort. by rewrite Hs. Qed.

Lemma handleSort_shape column st :
  SortShape (sortState st) → SortShape (sortState (handleSort column st)).
Proof.
  intros Hshape. unfold handleSort.
  destruct (Column.sortable column); simpl; [|done].
  by apply nextSortState_shape.
Qed.

Lemma step_shape props st ev :
  SortShape (sortState st) → SortShape (sortState (step props st ev)).
Proof.
  intros Hshape. destruct ev as [column|key record|]; simpl.
  - by apply handleSort_shape.
  - done.
  - unfold handleSelectAll. by case_match.
Qed.

(** The data-model invariant of [SortState]: a column is active exactly
    when a direction is set. *)
Lemma Reachable_shape st : Reachable st → SortShape (sortState st).
Proof.
  induction 1 as [|props st ev _ IH].
  - constructor.
  - by apply step_shape.
Qed.

Lemma handleSort_Reachable column st : Reachable st → Reachable (handleSort column st).
Proof. intros Hst. exact (Reachable_step (mkProps [] [] false false (RowKeyField "id")) st (ClickHeader column) Hst). Qed.

Lemma iter_handleSort_Reachable column st n :
  Reachable st → Reachable (Nat.iter n (handleSort column) st).
Proof.
  intros Hst. induction n as [|n IH]; simpl; [done|].
  by apply handleSort_Reachable.
Qed.

(** After one click on a sortable column that column is the active one or
    nothing is, and three more clicks come back to the same sort state. *)
Lemma handleSort_period column st :
  Column.sortable column = true →
  SortShape (sortState st) →
  sortState (Nat.iter 4 (handleSort column) st) = sortState (handleSort column st).
Proof.
  intros Hs Hshape. simpl.
  rewrite !(handleSort_sortable _ _ Hs).
  destruct (decide (SortState.key (sortState st) = Some (Column.key column))) as [Heq|Hne].
  - destruct Hshape as [|k|k]; simpl in Heq; [discriminate| |]; injection Heq as ->.
    + by rewrite nextSortState_asc, nextSortState_desc, nextSortState_none,
        nextSortState_asc.
    + by rewrite nextSortState_desc, nextSortState_none, nextSortState_asc,
        nextSortState_desc.
  - rewrite (nextSortState_other _ _ Hne).
    by rewrite nextSortState_asc, nextSortState_desc, nextSortState_none.
Qed.

(** C5: for a sortable column C and a reachable state, clicking C's header
    takes none to ascending, ascending on C to descending, descending on C
    to none with the active key cleared; clicking it while another column
    (or none) is active gives ascending on C; reachable sort states have no
    other shape, and from the first click on the sequence of sort states
    repeats with period three. *)
Theorem handleSort_cycle (column : Column.t) (st : State) :
  Column.sortable column = true →
  Reachable st →
  let k := Column.key column in
  (sortState st = sortNone → sortState (handleSort column st) = sortAsc k)
  ∧ (sortState st = sortAsc k → sortState (handleSort column st) = sortDesc k)
  ∧ (sortState st = sortDesc k → sortState (handleSort column st) = sortNone)
  ∧ (SortState.key (sortState st) ≠ Some k →
       sortState (handleSort column st) = sortAsc k)
  ∧ SortShape (sortState st)
  ∧ (∀ n : nat,
       sortState (Nat.iter (n + 4) (handleSort column) st)
       = sortState (Nat.iter (n + 1) (handleSort column) st)).
Proof.
  intros Hs Hreach k. subst k.
  repeat split.
  - intros Heq. rewrite handleSort_sortable, Heq by done. apply nextSortState_none.
  - intros Heq. rewrite handleSort_sortable, Heq by done. apply nextSortState_asc.
  - intros Heq. rewrite handleSort_sortable, Heq by done. apply nextSortState_desc.
  - intros Hne. rewrite handleSort_sortable by done. by apply nextSortState_other.
  - by apply Reachable_shape.
  - intros n.
    replace (n + 4)%nat with (4 + n)%nat by lia.
    replace (n + 1)%nat with (1 + n)%nat by lia.
    rewrite !Nat.iter_add.
    apply handleSort_period; [done|].
    apply Reachable_shape. by apply iter_handleSort_Reachable.
Qed.

Lemma handleSort_cycle_witness :
  let column := Column.mk "age" "Age" "age" true in
  let st := handleSort column initialState in
  sortState (handleSort column st) = sortDesc "age"
  ∧ sortState (handleSort column (handleSort column st)) = sortNone.
Proof.
  intros column st.
  assert (Hreach : Reachable st).
  { apply handleSort_Reachable, Reachable_init. }
  destruct (handleSort_cycle column st eq_refl Hreach) as (_ & Hasc & _).
  split.
  - apply Hasc. reflexivity.
  - reflexivity.
Defined.

(** * Derived view *)

Section DerivedView.

Variable sort : (row → row → JsNumber) → list row → list row.
Variable localeCompare : string → string → Z.
Variable toStr : value → string.

Lemma arrayFind_None {A : Type} (p : A → bool) (l : list A) :
  (∀ x, x ∈ l → p x = false) → arrayFind p l = None.
Proof.
  induction l as [|x l IH]; intros Hall; simpl; [done|].
  rewrite (Hall x) by left.
  apply IH. intros y Hy. apply Hall. by right.
Qed.

Lemma arrayFind_Some {A : Type} (p : A → bool) (l : list A) (x : A) :
  arrayFind p l = Some x → x ∈ l ∧ p x = true.
Proof.
  induction l as [|y l IH]; simpl; [done|].
  destruct (p y) eqn:Hy.
  - intros [= ->]. split; [left|done].
  - intros Hfind. destruct (IH Hfind) as [Hin Hp]. split; [by right|done].
Qed.

(** C7: with no active column key, or with an active key that no column of
    the column list carries, the derived view is the data in its given
    order. *)
Theorem sortedData_unsorted (props : DataTableProps) (st : SortState.t) :
  SortState.key st = None
  ∨ (∀ col, col ∈ columns props → SortState.key st ≠ Some (Column.key col)) →
  sortedData sort localeCompare toStr props st = data props.
Proof.
  intros [Hnone|Hmiss]; unfold sortedData.
  - by rewrite Hnone.
  - destruct (keyFalsy _ || _); [done|].
    rewrite arrayFind_None; [done|].
    intros col Hcol. apply keyMatches_false. by apply Hmiss.
Qed.

(** ** Comparator *)

(** C8: two absent values compare equal (0) in either direction; of an
    absent and a present value the absent one compares smaller (-1, and 1
    in the other argument order) under ascending and greater under
    descending, so that the sort puts it first under ascending and last
    under descending. *)
Theorem compareValues_absent (aValue bValue : value) :
  (isNullish aValue = true → isNullish bValue = true →
     ∀ direction,
       compareValues localeCompare toStr direction aValue bValue = Finite 0)
  ∧ (isNullish aValue = true → isNullish bValue = false →
     compareValues localeCompare toStr (Some asc) aValue bValue = Finite (-1)
     ∧ compareValues localeCompare toStr (Some asc) bValue aValue = Finite 1
     ∧ compareValues localeCompare toStr (Some desc) aValue bValue = Finite 1
     ∧ compareValues localeCompare toStr (Some desc) bValue aValue = Finite (-1)
     ∧ arraySort (compareValues localeCompare toStr (Some asc)) [aValue; bValue]
       = [aValue; bValue]
     ∧ arraySort (compareValues localeCompare toStr (Some asc)) [bValue; aValue]
       = [aValue; bValue]
     ∧ arraySort (compareValues localeCompare toStr (Some desc)) [aValue; bValue]
       = [bValue; aValue]
     ∧ arraySort (compareValues localeCompare toStr (Some desc)) [bValue; aValue]
       = [bValue; aValue]).
Proof.
  split.
  - intros Ha Hb direction. unfold compareValues. by rewrite Ha, Hb.
  - intros Ha Hb.
    assert (Hab : ∀ d, compareValues localeCompare toStr d aValue bValue
                       = if isAsc d then Finite (-1) else Finite 1).
    { intros d. unfold compareValues. by rewrite Ha, Hb. }
    assert (Hba : ∀ d, compareValues localeCompare toStr d bValue aValue
                       = if isAsc d then Finite 1 else Finite (-1)).
    { intros d. unfold compareValues. by rewrite Ha, Hb. }
    unfold arraySort. simpl. rewrite !Hab, !Hba. simpl.
    repeat split; done.
Qed.

End DerivedView.

Lemma sortedData_unsorted_witness :
  sortedData arraySort codeUnitCompare primitiveToStr mockProps
    (SortState.mk (Some "salary") (Some asc))
  = mockUsers.
Proof.
  apply (sortedData_unsorted arraySort codeUnitCompare primitiveToStr mockProps).
  right. intros col Hcol.
  unfold mockProps, tableOf, mockColumns in Hcol; simpl in Hcol.
  rewrite !elem_of_cons, elem_of_nil in Hcol.
  destruct Hcol as [-> | [-> | [-> | []]]]; simpl; discriminate.
Defined.

Lemma compareValues_absent_witness :
  compareValues codeUnitCompare primitiveToStr (Some asc) VNull (VNumber 7)
  = Finite (-1)
  ∧ compareValues codeUnitCompare primitiveToStr (Some desc) VNull (VNumber 7)
    = Finite 1
  ∧ compareValues codeUnitCompare primitiveToStr (Some asc) VNull VUndefined
    = Finite 0.
Proof.
  destruct (compareValues_absent codeUnitCompare primitiveToStr VNull (VNumber 7))
    as [_ Hone].
  destruct (Hone eq_refl eq_refl) as (Hlt & _ & Hgt & _).
  destruct (compareValues_absent codeUnitCompare primitiveToStr VNull VUndefined)
    as [Hboth _].
  exact (conj Hlt (conj Hgt (Hboth eq_refl eq_refl (Some asc)))).
Defined.

(** * Selection *)

Lemma elem_of_toggleKey (key k : value) (selected : gset value) :
  k ∈ toggleKey key selected
  ↔ (k ∈ selected ∧ k ≠ key) ∨ (k = key ∧ key ∉ selected).
Proof.
  unfold toggleKey. case_bool_decide as Hin.
  - rewrite elem_of_difference, elem_of_singleton. naive_solver.
  - rewrite elem_of_union, elem_of_singleton.
    split; [|naive_solver].
    intros [Hk | ->]; [|by right].
    left. split; [done|]. by intros ->.
Qed.

Lemma toggleKey_fresh (key : value) (selected : gset value) :
  key ∉ selected → toggleKey key selected = selected ∪ {[ key ]}.
Proof. intros Hnin. unfold toggleKey. by rewrite bool_decide_eq_false_2. Qed.

Lemma toggleKey_member (key : value) (selected : gset value) :
  key ∈ selected → toggleKey key selected = selected ∖ {[ key ]}.
Proof. intros Hin. unfold toggleKey. by rewrite bool_decide_eq_true_2. Qed.

Lemma toggleKey_involutive (key : value) (selected : gset value) :
  toggleKey key (toggleKey key selected) = selected.
Proof.
  apply set_eq. intros k. rewrite !elem_of_toggleKey.
  destruct (decide (k = key)) as [-> | Hne]; [|naive_solver].
  destruct (decide (key ∈ selected)); naive_solver.
Qed.

Lemma handleRowSelect_selectedRows props key record st :
  selectedRows (handleRowSelect props key record st).1
  = toggleKey key (selectedRows st).
Proof. reflexivity. Qed.

(** C10: with the same data set, toggling the same row identity twice in
    succession leaves the stored selection set as it was before the first
    toggle. *)
Theorem handleRowSelect_twice (props : DataTableProps) (key : value)
    (record : row) (st : State) :
  selectedRows
    (handleRowSelect props key record (handleRowSelect props key record st).1).1
  = selectedRows st.
Proof. rewrite !handleRowSelect_selectedRows. apply toggleKey_involutive. Qed.

(** ** Framing of the two state cells *)

Lemma step_header_selectedRows props st column :
  selectedRows (step props st (ClickHeader column)) = selectedRows st.
Proof. simpl. unfold handleSort. by destruct (Column.sortable column). Qed.

Lemma step_selection_sortState props st ev :
  isHeaderClick (props, ev) = false →
  sortState (step props st ev) = sortState st.
Proof.
  destruct ev as [column|key record|]; simpl; [done|done|].
  intros _. unfold handleSelectAll. by case_match.
Qed.

(** A selection handler reads the selection cell and the props only. *)
Lemma step_selection_independent props st st' ev :
  selectedRows st = selectedRows st' →
  selectedRows (step props st ev) = selectedRows (step props st' ev).
Proof.
  intros Heq. destruct ev as [column|key record|]; simpl.
  - unfold handleSort. by destruct (Column.sortable column).
  - by rewrite Heq.
  - unfold handleSelectAll. rewrite Heq. by case_match.
Qed.

(** The sort handler reads the sort cell only. *)
Lemma step_sort_independent props props' st st' ev :
  sortState st = sortState st' →
  sortState (step props st ev) = sortState (step props' st' ev).
Proof.
  intros Heq. destruct ev as [column|key record|]; simpl.
  - unfold handleSort. destruct (Column.sortable column); simpl; by rewrite ?Heq.
  - done.
  - unfold handleSelectAll. by do 2 case_match.
Qed.

Lemma run_cons st props ev evs :
  run st ((props, ev) :: evs) = run (step props st ev) evs.
Proof. reflexivity. Qed.

Lemma run_nil st : run st [] = st.
Proof. reflexivity. Qed.

Lemma step_ClickRow props st key record :
  step props st (ClickRow key record) = (handleRowSelect props key record st).1.
Proof. reflexivity. Qed.

Lemma step_ClickSelectAll props st :
  step props st ClickSelectAll = (handleSelectAll props st).1.
Proof. reflexivity. Qed.

(** Over a whole run the selection is what the selection events alone
    produce, and the sort state what the header clicks alone produce. *)
Lemma run_frame (evs : list (DataTableProps * Event)) (st : State) :
  selectedRows (run st evs)
  = selectedRows (run st (filter (λ pe, isHeaderClick pe = false) evs))
  ∧ sortState (run st evs)
    = sortState (run st (filter (λ pe, isHeaderClick pe = true) evs)).
Proof.
  assert (Hgen : ∀ st1 st2 st3,
    selectedRows st1 = selectedRows st2 → sortState st1 = sortState st3 →
    selectedRows (run st1 evs)
    = selectedRows (run st2 (filter (λ pe, isHeaderClick pe = false) evs))
    ∧ sortState (run st1 evs)
      = sortState (run st3 (filter (λ pe, isHeaderClick pe = true) evs))).
  { induction evs as [|[props ev] evs IH]; intros st1 st2 st3 Hsel Hsort; [done|].
    rewrite !filter_cons.
    destruct (isHeaderClick (props, ev)) eqn:Hhead.
    - rewrite decide_False by done. rewrite decide_True by done.
      destruct ev as [column| |]; try discriminate.
      rewrite !run_cons. apply IH.
      + by rewrite (step_header_selectedRows props st1 column).
      + by apply (step_sort_independent props props st1 st3 (ClickHeader column)).
    - rewrite decide_True by done. rewrite decide_False by done.
      rewrite !run_cons. apply IH.
      + by apply step_selection_independent.
      + by rewrite step_selection_sortState. }
  by apply Hgen.
Qed.

(** C9: a header click leaves the selection set as it was, and a row
    toggle or a select-all leaves the sort state (key and direction) as it
    was, in every state; so over any run the two cells evolve
    independently of each other's events. *)
Theorem sort_selection_frame (props : DataTableProps) (st : State) :
  (∀ column, selectedRows (handleSort column st) = selectedRows st)
  ∧ (∀ key record,
       sortState (handleRowSelect props key record st).1 = sortState st)
  ∧ sortState (handleSelectAll props st).1 = sortState st
  ∧ (∀ evs,
       selectedRows (run st evs)
       = selectedRows (run st (filter (λ pe, isHeaderClick pe = false) evs))
       ∧ sortState (run st evs)
         = sortState (run st (filter (λ pe, isHeaderClick pe = true) evs))).
Proof.
  split; [|split; [|split]].
  - intros column. apply (step_header_selectedRows props).
  - done.
  - by apply (step_selection_sortState props st ClickSelectAll).
  - intros evs. apply run_frame.
Qed.

(** ** Row toggling *)

(** C1 does not hold as specified: the component has no single mode,
    and toggling row 1 then row 2 from the empty selection stores both
    identities, not the second alone. *)
Lemma single_mode_counterexample :
  let st1 := (handleRowSelect mockProps (VNumber 1) (user 1 "John Doe" 30) initialState).1 in
  let st2 := (handleRowSelect mockProps (VNumber 2) (user 2 "Jane Smith" 25) st1).1 in
  selectedRows st2 = {[ VNumber 1; VNumber 2 ]}
  ∧ selectedRows st2 ≠ {[ VNumber 2 ]}.
Proof.
  intros st1 st2. subst st1 st2.
  rewrite !handleRowSelect_selectedRows.
  change (selectedRows initialState) with (∅ : gset value).
  rewrite (toggleKey_fresh (VNumber 1)) by apply not_elem_of_empty.
  rewrite toggleKey_fresh by (rewrite elem_of_union, elem_of_singleton; intros [Hin | [=]]; by apply not_elem_of_empty in Hin).
  split; [set_solver|].
  intros Heq.
  assert (Hin : VNumber 1 ∈ ({[ VNumber 2 ]} : gset value)).
  { rewrite <- Heq. set_solver. }
  apply elem_of_singleton in Hin. discriminate.
Qed.

(** C1, amended: a row toggle adds the identity to the selection when it
    was not selected, keeping the other members, and removes it when it
    was; so from the empty selection the result is exactly that identity,
    a sole member toggled again leaves the empty selection, and two
    toggles of distinct unselected identities leave both selected. *)
Theorem handleRowSelect_toggles (props : DataTableProps) (key : value)
    (record : row) (st : State) :
  let st' := (handleRowSelect props key record st).1 in
  (key ∉ selectedRows st → selectedRows st' = selectedRows st ∪ {[ key ]})
  ∧ (key ∈ selectedRows st → selectedRows st' = selectedRows st ∖ {[ key ]})
  ∧ (selectedRows st = ∅ → selectedRows st' = {[ key ]})
  ∧ (selectedRows st = {[ key ]} → selectedRows st' = ∅)
  ∧ (∀ b recordB, key ≠ b → key ∉ selectedRows st → b ∉ selectedRows st →
       selectedRows (handleRowSelect props b recordB st').1
       = selectedRows st ∪ {[ key; b ]}).
Proof.
  intros st'. subst st'. rewrite !handleRowSelect_selectedRows.
  split; [|split; [|split; [|split]]].
  - apply toggleKey_fresh.
  - apply toggleKey_member.
  - intros ->. rewrite toggleKey_fresh by set_solver. set_solver.
  - intros ->. rewrite toggleKey_member by set_solver. set_solver.
  - intros b recordB Hne Hkey Hb.
    rewrite !handleRowSelect_selectedRows.
    rewrite (toggleKey_fresh key) by done.
    rewrite toggleKey_fresh by set_solver. set_solver.
Qed.

Lemma handleRowSelect_toggles_witness :
  selectedRows
    (handleRowSelect mockProps (VNumber 3) (user 3 "Bob Johnson" 35)
       (handleRowSelect mockProps (VNumber 1) (user 1 "John Doe" 30) initialState).1).1
  = ∅ ∪ {[ VNumber 1; VNumber 3 ]}.
Proof.
  destruct (handleRowSelect_toggles mockProps (VNumber 1) (user 1 "John Doe" 30)
              initialState) as (_ & _ & _ & _ & Htwo).
  apply (Htwo (VNumber 3) (user 3 "Bob Johnson" 35)).
  - discriminate.
  - apply not_elem_of_empty.
  - apply not_elem_of_empty.
Defined.

(** ** Select all *)

Lemma length_rowKeys props : length (rowKeys props) = length (data props).
Proof. unfold rowKeys. apply length_imap. Qed.

Lemma size_allKeys props :
  NoDup (rowKeys props) → size (allKeys props) = length (data props).
Proof.
  intros Hnodup. unfold allKeys.
  rewrite size_list_to_set by done. apply length_rowKeys.
Qed.

Lemma handleSelectAll_clear props st :
  size (selectedRows st) = length (data props) →
  handleSelectAll props st = (mkState (sortState st) ∅, emit props []).
Proof.
  intros Hsize. unfold handleSelectAll.
  by rewrite (proj2 (Nat.eqb_eq _ _) Hsize).
Qed.

Lemma handleSelectAll_fill props st :
  size (selectedRows st) ≠ length (data props) →
  handleSelectAll props st
  = (mkState (sortState st) (allKeys props), emit props (data props)).
Proof.
  intros Hsize. unfold handleSelectAll.
  by rewrite (proj2 (Nat.eqb_neq _ _) Hsize).
Qed.

(** C3: the code misses the claim at this input.  Rows 1 and 3 are
    selected and the host drops row 3: the selection [{1, 3}] is not the
    identity set [{1, 2}] of the two rows left, so select-all should select
    [{1, 2}]; it clears the selection instead, because the test compares
    the number of selected identities with the number of rows. *)
Lemma select_all_counterexample :
  let st := run initialState
              [(mockProps, ClickRow (VNumber 1) (user 1 "John Doe" 30));
               (mockProps, ClickRow (VNumber 3) (user 3 "Bob Johnson" 35))] in
  selectedRows st ≠ allKeys twoProps
  ∧ selectedRows (handleSelectAll twoProps st).1 = ∅
  ∧ selectedRows (handleSelectAll twoProps st).1 ≠ allKeys twoProps.
Proof.
  intros st.
  assert (Hst : selectedRows st = {[ VNumber 1; VNumber 3 ]}).
  { subst st. rewrite !run_cons, run_nil, !step_ClickRow.
    rewrite !handleRowSelect_selectedRows.
    change (selectedRows initialState) with (∅ : gset value).
    rewrite (toggleKey_fresh (VNumber 1)) by apply not_elem_of_empty.
    rewrite toggleKey_fresh; [set_solver|].
    rewrite elem_of_union, elem_of_singleton.
    intros [Hin | [=]]. by apply not_elem_of_empty in Hin. }
  clearbody st.
  assert (Hall : VNumber 2 ∈ allKeys twoProps).
  { unfold allKeys. apply elem_of_list_to_set.
    change (rowKeys twoProps) with [VNumber 1; VNumber 2].
    apply list_elem_of_In. simpl. tauto. }
  assert (Hsize : size (selectedRows st) = length (data twoProps)).
  { rewrite Hst. rewrite size_union by set_solver. by rewrite !size_singleton. }
  rewrite (handleSelectAll_clear _ _ Hsize). simpl.
  split; [|split; [done|]].
  - intros Heq. rewrite <- Heq, Hst in Hall. set_solver.
  - intros Heq. rewrite <- Heq in Hall. by apply not_elem_of_empty in Hall.
Qed.

(** What select-all tests: it clears the selection when the number of
    selected identities equals the number of rows, and otherwise stores the
    full identity set; with pairwise distinct row identities and a
    selection within them the two numbers are equal exactly when the
    selection is the full identity set. *)
Theorem handleSelectAll_by_size (props : DataTableProps) (st : State) :
  (size (selectedRows st) = length (data props) →
     selectedRows (handleSelectAll props st).1 = ∅)
  ∧ (size (selectedRows st) ≠ length (data props) →
     selectedRows (handleSelectAll props st).1 = allKeys props)
  ∧ (NoDup (rowKeys props) → selectedRows st ⊆ allKeys props →
     (size (selectedRows st) = length (data props)
      ↔ selectedRows st = allKeys props)).
Proof.
  split; [|split].
  - intros Hsize. by rewrite handleSelectAll_clear.
  - intros Hsize. by rewrite handleSelectAll_fill.
  - intros Hnodup Hsub. split.
    + intros Hsize. apply set_subseteq_size_eq; [done|].
      rewrite size_allKeys by done. lia.
    + intros ->. by apply size_allKeys.
Qed.

Lemma handleSelectAll_by_size_witness :
  selectedRows (handleSelectAll mockProps initialState).1 = allKeys mockProps
  ∧ (size (allKeys mockProps) = length (data mockProps)
     ↔ allKeys mockProps = allKeys mockProps).
Proof.
  destruct (handleSelectAll_by_size mockProps initialState) as (_ & Hfill & _).
  destruct (handleSelectAll_by_size mockProps (mkState initialSortState (allKeys mockProps)))
    as (_ & _ & Hiff).
  split.
  - apply Hfill. change (selectedRows initialState) with (∅ : gset value).
    rewrite size_empty. discriminate.
  - apply Hiff; [|done].
    change (rowKeys mockProps) with [VNumber 1; VNumber 2; VNumber 3].
    repeat constructor; rewrite ?elem_of_cons, ?elem_of_nil; intros Hin;
      repeat destruct Hin as [Hin | Hin]; done.
Defined.

(** C4 does not hold as specified: from the selection [{1}] over three
    rows, two select-all calls leave the empty selection, not [{1}]. *)
Lemma select_all_twice_counterexample :
  let st := (handleRowSelect mockProps (VNumber 1) (user 1 "John Doe" 30) initialState).1 in
  selectedRows st = {[ VNumber 1 ]}
  ∧ selectedRows (handleSelectAll mockProps (handleSelectAll mockProps st).1).1 = ∅
  ∧ selectedRows (handleSelectAll mockProps (handleSelectAll mockProps st).1).1
    ≠ selectedRows st.
Proof.
  intros st.
  assert (Hst : selectedRows st = {[ VNumber 1 ]}).
  { subst st. rewrite handleRowSelect_selectedRows.
    change (selectedRows initialState) with (∅ : gset value).
    rewrite toggleKey_fresh by apply not_elem_of_empty. set_solver. }
  clearbody st.
  assert (Hnodup : NoDup (rowKeys mockProps)).
  { change (rowKeys mockProps) with [VNumber 1; VNumber 2; VNumber 3].
    repeat constructor; rewrite ?elem_of_cons, ?elem_of_nil; intros Hin;
      repeat destruct Hin as [Hin | Hin]; done. }
  assert (Hfirst : handleSelectAll mockProps st
                   = (mkState (sortState st) (allKeys mockProps),
                      emit mockProps (data mockProps))).
  { apply handleSelectAll_fill. rewrite Hst, size_singleton. simpl. lia. }
  assert (Hsecond : selectedRows (handleSelectAll mockProps (handleSelectAll mockProps st).1).1 = ∅).
  { rewrite Hfirst. simpl fst. rewrite handleSelectAll_clear; [done|].
    simpl selectedRows. by apply size_allKeys. }
  split; [done|]. split; [done|].
  rewrite Hsecond, Hst. intros Heq.
  assert (Hin : VNumber 1 ∈ (∅ : gset value)) by (rewrite Heq; set_solver).
  by apply not_elem_of_empty in Hin.
Qed.

(** C4, amended: with pairwise distinct row identities and an unchanged
    data set, two select-all calls in a row return the state to what it
    was when the selection was empty or was the full identity set. *)
Theorem handleSelectAll_twice (props : DataTableProps) (st : State) :
  NoDup (rowKeys props) →
  selectedRows st = ∅ ∨ selectedRows st = allKeys props →
  (handleSelectAll props (handleSelectAll props st).1).1 = st.
Proof.
  intros Hnodup Hsel. destruct st as [sort selected]. simpl in Hsel.
  pose proof (size_allKeys props Hnodup) as Hall.
  assert (Hclear : ∀ selected', size selected' = length (data props) →
            (handleSelectAll props (mkState sort selected')).1 = mkState sort ∅).
  { intros selected' Hsize. by rewrite handleSelectAll_clear. }
  assert (Hfill : ∀ selected', size selected' ≠ length (data props) →
            (handleSelectAll props (mkState sort selected')).1
            = mkState sort (allKeys props)).
  { intros selected' Hsize. by rewrite handleSelectAll_fill. }
  destruct (decide (length (data props) = 0%nat)) as [Hzero | Hpos].
  - assert (Hempty : allKeys props = ∅).
    { apply leibniz_equiv, size_empty_inv. by rewrite Hall. }
    assert (selected = ∅) as -> by (destruct Hsel; congruence).
    rewrite !Hclear; [done| |]; rewrite size_empty; lia.
  - destruct Hsel as [-> | ->].
    + rewrite (Hfill ∅) by (rewrite size_empty; lia).
      by rewrite Hclear.
    + rewrite (Hclear (allKeys props)) by done.
      rewrite Hfill; [done|]. rewrite size_empty. lia.
Qed.

Lemma handleSelectAll_twice_witness :
  (handleSelectAll mockProps (handleSelectAll mockProps initialState).1).1
  = initialState.
Proof.
  apply (handleSelectAll_twice mockProps initialState).
  - change (rowKeys mockProps) with [VNumber 1; VNumber 2; VNumber 3].
    repeat constructor; rewrite ?elem_of_cons, ?elem_of_nil; intros Hin;
      repeat destruct Hin as [Hin | Hin]; done.
  - left. reflexivity.
Defined.

(** ** Selection and the current data set *)

Lemma elem_of_rowKeys props (k : value) :
  k ∈ rowKeys props
  ↔ ∃ index record,
      data props !! index = Some record ∧ k = getRowKey props record index.
Proof.
  unfold rowKeys. rewrite elem_of_lookup_imap. naive_solver.
Qed.

Lemma elem_of_allKeys props (k : value) : k ∈ allKeys props ↔ k ∈ rowKeys props.
Proof. unfold allKeys. apply elem_of_list_to_set. Qed.

Lemma filterFrom_sublist {A : Type} (p : A → nat → bool) (l : list A) (index : nat) :
  filterFrom p index l `sublist_of` l.
Proof.
  revert index. induction l as [|x l IH]; intros index; simpl.
  - constructor.
  - destruct (p x index).
    + by apply sublist_skip.
    + by apply sublist_cons.
Qed.

Lemma elem_of_filterFrom {A : Type} (p : A → nat → bool) (l : list A)
    (index : nat) (x : A) :
  x ∈ filterFrom p index l
  ↔ ∃ offset, l !! offset = Some x ∧ p x (index + offset)%nat = true.
Proof.
  revert index. induction l as [|y l IH]; intros index; simpl.
  - rewrite elem_of_nil. split; [done|]. by intros (offset & Hlook & _).
  - split.
    + destruct (p y index) eqn:Hy.
      * rewrite elem_of_cons. intros [-> | Hin].
        -- exists 0%nat. by rewrite Nat.add_0_r.
        -- apply IH in Hin as (offset & Hlook & Hp).
           exists (S offset). by rewrite Nat.add_succ_r.
      * intros Hin. apply IH in Hin as (offset & Hlook & Hp).
        exists (S offset). by rewrite Nat.add_succ_r.
    + intros ([|offset] & Hlook & Hp); simpl in Hlook.
      * injection Hlook as ->. rewrite Nat.add_0_r in Hp. rewrite Hp. left.
      * assert (Hin : x ∈ filterFrom p (S index) l).
        { apply IH. exists offset. by rewrite Nat.add_succ_r in Hp. }
        destruct (p y index); [by right|done].
Qed.

(** What a row toggle hands to [onRowSelect]: the rows of the current data
    set, in its order, whose identity is in the new selection. *)
Lemma handleRowSelect_emits props key record st rows :
  (handleRowSelect props key record st).2 = Some rows →
  rows `sublist_of` data props
  ∧ (∀ x, x ∈ rows ↔
       ∃ index, data props !! index = Some x
                ∧ getRowKey props x index ∈ toggleKey key (selectedRows st)).
Proof.
  unfold handleRowSelect, emit; simpl. destruct (onRowSelect props); [|done].
  intros [= <-]. split.
  - apply filterFrom_sublist.
  - intros x. unfold arrayFilter. rewrite elem_of_filterFrom.
    split; intros (index & Hlook & Hsel); exists index; split; try done.
    + by apply bool_decide_eq_true in Hsel.
    + by apply bool_decide_eq_true.
Qed.

Lemma handleSelectAll_within props st :
  selectedRows (handleSelectAll props st).1 ⊆ allKeys props.
Proof. unfold handleSelectAll. case_match; simpl; set_solver. Qed.

Lemma step_within props st ev :
  targetsCurrentRow props ev →
  selectedRows st ⊆ allKeys props →
  selectedRows (step props st ev) ⊆ allKeys props.
Proof.
  intros Hev Hsub. destruct ev as [column|key record|].
  - by rewrite step_header_selectedRows.
  - rewrite step_ClickRow, handleRowSelect_selectedRows.
    intros k. rewrite elem_of_toggleKey. intros [[Hk _] | [-> _]].
    + by apply Hsub.
    + by apply elem_of_allKeys.
  - rewrite step_ClickSelectAll. apply handleSelectAll_within.
Qed.

Lemma runWith_within props evs st :
  Forall (targetsCurrentRow props) evs →
  selectedRows st ⊆ allKeys props →
  selectedRows (runWith props st evs) ⊆ allKeys props.
Proof.
  unfold runWith. intros Hevs. revert st.
  induction Hevs as [|ev evs Hev _ IH]; intros st Hsub; [done|].
  rewrite fmap_cons, run_cons. apply IH. by apply step_within.
Qed.

(** C2 does not hold as specified: row 2 is selected, the host shrinks
    the data set to row 1, and the next row toggle emits row 1 alone but
    stores [{1, 2}]: identity 2, of no current row, stays in the stored
    set. *)
Lemma stale_identity_counterexample :
  let st := (handleRowSelect mockProps (VNumber 2) (user 2 "Jane Smith" 25) initialState).1 in
  let next := handleRowSelect shrunkProps (VNumber 1) (user 1 "John Doe" 30) st in
  next.2 = Some [user 1 "John Doe" 30]
  ∧ VNumber 2 ∈ selectedRows next.1
  ∧ VNumber 2 ∉ rowKeys shrunkProps.
Proof.
  intros st next.
  assert (Hsel : selectedRows next.1 = {[ VNumber 2; VNumber 1 ]}).
  { subst next st. rewrite !handleRowSelect_selectedRows.
    change (selectedRows initialState) with (∅ : gset value).
    rewrite (toggleKey_fresh (VNumber 2)) by apply not_elem_of_empty.
    rewrite toggleKey_fresh; [set_solver|].
    rewrite elem_of_union, elem_of_singleton.
    intros [Hin | [=]]. by apply not_elem_of_empty in Hin. }
  split; [|split].
  - subst next st. by vm_compute.
  - rewrite Hsel. set_solver.
  - change (rowKeys shrunkProps) with [VNumber 1].
    rewrite elem_of_cons, elem_of_nil. by intros [[=] | []].
Qed.

(** C2, amended: with an unchanged data set and row toggles on identities
    of its rows, a selection within the data set's identities stays within
    them over any sequence of events.  When the data set has shrunk, a
    row toggle emits only rows of the current data set, in its order, but
    keeps a stale identity in the stored set; select-all emits nothing or
    the current rows and leaves only current identities stored. *)
Theorem selection_within_data (props : DataTableProps) (st : State) :
  (∀ evs, Forall (targetsCurrentRow props) evs →
     selectedRows st ⊆ allKeys props →
     selectedRows (runWith props st evs) ⊆ allKeys props)
  ∧ (∀ key record rows,
       (handleRowSelect props key record st).2 = Some rows →
       rows `sublist_of` data props
       ∧ ∀ x, x ∈ rows ↔
           ∃ index, data props !! index = Some x
             ∧ getRowKey props x index
               ∈ selectedRows (handleRowSelect props key record st).1)
  ∧ (∀ key record stale,
       stale ∈ selectedRows st → stale ≠ key →
       stale ∈ selectedRows (handleRowSelect props key record st).1)
  ∧ (∀ rows, (handleSelectAll props st).2 = Some rows →
       rows = [] ∨ rows = data props)
  ∧ selectedRows (handleSelectAll props st).1 ⊆ allKeys props.
Proof.
  split; [|split; [|split; [|split]]].
  - intros evs Hevs Hsub. by apply runWith_within.
  - intros key record rows Hemit.
    destruct (handleRowSelect_emits _ _ _ _ _ Hemit) as [Hsub Hrows].
    split; [done|]. intros x. apply Hrows.
  - intros key record stale Hin Hne.
    rewrite handleRowSelect_selectedRows, elem_of_toggleKey. by left.
  - intros rows. unfold handleSelectAll, emit.
    case_match; destruct (onRowSelect props); simpl; intros [= <-]; auto.
  - apply handleSelectAll_within.
Qed.

Lemma selection_within_data_witness :
  selectedRows
    (runWith mockProps initialState
       [ClickRow (VNumber 1) (user 1 "John Doe" 30); ClickSelectAll;
        ClickHeader ageColumn; ClickRow (VNumber 3) (user 3 "Bob Johnson" 35)])
  ⊆ allKeys mockProps.
Proof.
  destruct (selection_within_data mockProps initialState) as [Hrun _].
  apply Hrun.
  - change (rowKeys mockProps) with [VNumber 1; VNumber 2; VNumber 3].
    repeat constructor; simpl;
      change (rowKeys mockProps) with [VNumber 1; VNumber 2; VNumber 3];
      rewrite !elem_of_cons; auto.
  - change (selectedRows initialState) with (∅ : gset value).
    apply empty_subseteq.
Defined.

(** * The insertion sort *)

Local Open Scope list_scope.

Section SortModel.

Context {A : Type}.
Variable order : A → A → Z.

Lemma sortInsert_Permutation (x : A) (l : list A) :
  sortInsert order x l ≡ₚ x :: l.
Proof.
  induction l as [|y l IH]; simpl; [done|].
  destruct (order x y <=? 0); [done|].
  rewrite IH. apply Permutation_swap.
Qed.

Lemma insertionSort_Permutation (l : list A) : insertionSort order l ≡ₚ l.
Proof.
  induction l as [|x l IH]; simpl; [done|].
  fold (insertionSort order l).
  by rewrite sortInsert_Permutation, IH.
Qed.

Lemma elem_of_sortInsert (x y : A) (l : list A) :
  y ∈ sortInsert order x l ↔ y = x ∨ y ∈ l.
Proof. by rewrite sortInsert_Permutation, elem_of_cons. Qed.

Lemma elem_of_insertionSort (y : A) (l : list A) :
  y ∈ insertionSort order l ↔ y ∈ l.
Proof. by rewrite insertionSort_Permutation. Qed.

Lemma sortInsert_head (x : A) (l : list A) :
  (∀ y, head l = Some y → order x y ≤ 0) →
  sortInsert order x l = x :: l.
Proof.
  destruct l as [|y l]; intros Hhead; simpl; [done|].
  by rewrite (proj2 (Z.leb_le _ _) (Hhead y eq_refl)).
Qed.

Lemma sortInsert_pass (x : A) (l1 l2 : list A) :
  (∀ y, y ∈ l1 → order x y > 0) →
  sortInsert order x (l1 ++ l2) = l1 ++ sortInsert order x l2.
Proof.
  induction l1 as [|y l1 IH]; intros Hgt; simpl; [done|].
  assert (Hy : order x y > 0) by (apply Hgt; left).
  rewrite (proj2 (Z.leb_gt _ _)) by lia.
  f_equal. apply IH. intros z Hz. apply Hgt. by right.
Qed.

Lemma sortInsert_stop (x : A) (l1 l2 : list A) :
  (∀ y, head l2 = Some y → order x y ≤ 0) →
  sortInsert order x (l1 ++ l2) = sortInsert order x l1 ++ l2.
Proof.
  intros Hhead. induction l1 as [|y l1 IH]; simpl.
  - by apply sortInsert_head.
  - destruct (order x y <=? 0); [done|]. by rewrite IH.
Qed.

Section Class.

Variable P : A → Prop.
Context `{!∀ x, Decision (P x)}.

(** Inserting a member of the class puts it in front of the members
    already there; inserting a non-member leaves them as they are. *)
Lemma filter_sortInsert (x : A) (l : list A) :
  (P x → ∀ y, y ∈ l → P y → order x y ≤ 0) →
  filter P (sortInsert order x l) = filter P (x :: l).
Proof.
  induction l as [|y l IH]; intros Htie; simpl; [done|].
  destruct (order x y <=? 0) eqn:Hle; [done|].
  apply Z.leb_gt in Hle.
  assert (Hrec : filter P (sortInsert order x l) = filter P (x :: l)).
  { apply IH. intros Hx z Hz. apply Htie; [done|by right]. }
  destruct (decide (P y)) as [Hy | Hy].
  - assert (Hx : ¬ P x).
    { intros Hx. specialize (Htie Hx y ltac:(left) Hy). lia. }
    rewrite (filter_cons_True P y) by done.
    rewrite Hrec, !(filter_cons_False P x) by done.
    by rewrite filter_cons_True.
  - rewrite (filter_cons_False P y) by done. rewrite Hrec.
    rewrite !(filter_cons P x). destruct (decide (P x)); by rewrite filter_cons_False.
Qed.

(** A class of elements that are not after one another comes out of the
    insertion sort in the order it went in. *)
Lemma insertionSort_stable (l : list A) :
  (∀ x y, x ∈ l → y ∈ l → P x → P y → order x y = 0) →
  filter P (insertionSort order l) = filter P l.
Proof.
  induction l as [|x l IH]; intros Htie; simpl; [done|].
  fold (insertionSort order l).
  rewrite filter_sortInsert.
  - rewrite !(filter_cons P x), IH; [done|].
    intros y z Hy Hz. apply Htie; by right.
  - intros Hx y Hy HPy.
    rewrite (Htie x y); [done|left| |done|done].
    right. by rewrite <- (insertionSort_Permutation l).
Qed.

End Class.

Lemma sortInsert_StronglySorted (x : A) (l : list A) :
  (∀ y, y ∈ l → order x y > 0 → order y x ≤ 0) →
  (∀ y z, y ∈ l → z ∈ l → order x y ≤ 0 → order y z ≤ 0 → order x z ≤ 0) →
  StronglySorted (λ a b, order a b ≤ 0) l →
  StronglySorted (λ a b, order a b ≤ 0) (sortInsert order x l).
Proof.
  intros Htotal Htrans Hsorted.
  induction Hsorted as [|y l Hl IH Hall]; simpl.
  - repeat constructor.
  - destruct (order x y <=? 0) eqn:Hle.
    + apply Z.leb_le in Hle. constructor; [by constructor|].
      constructor; [done|].
      rewrite Forall_forall in Hall |- *. intros z Hz.
      apply (Htrans y z); [left|by right|done|by apply Hall].
    + apply Z.leb_gt in Hle. constructor.
      * apply IH.
        -- intros z Hz. apply Htotal. by right.
        -- intros z w Hz Hw. apply Htrans; by right.
      * rewrite Forall_forall in Hall |- *. intros z Hz.
        apply elem_of_sortInsert in Hz as [-> | Hz]; [|by apply Hall].
        apply Htotal; [left|lia].
Qed.

(** When the order is total and transitive on the elements, every element
    of the sorted array is not after any later one. *)
Lemma insertionSort_StronglySorted (l : list A) :
  (∀ x y, x ∈ l → y ∈ l → order x y > 0 → order y x ≤ 0) →
  (∀ x y z, x ∈ l → y ∈ l → z ∈ l →
     order x y ≤ 0 → order y z ≤ 0 → order x z ≤ 0) →
  StronglySorted (λ a b, order a b ≤ 0) (insertionSort order l).
Proof.
  induction l as [|x l IH]; intros Htotal Htrans; simpl; [constructor|].
  fold (insertionSort order l).
  apply sortInsert_StronglySorted.
  - intros y Hy. apply Htotal; [left|]. right. by apply elem_of_insertionSort.
  - intros y z Hy Hz. apply Htrans; [left| |]; right; by apply elem_of_insertionSort.
  - apply IH.
    + intros y z Hy Hz. apply Htotal; by right.
    + intros y z w Hy Hz Hw. apply Htrans; by right.
Qed.

End SortModel.

Lemma StronglySorted_weaken {A : Type} (R R' : A → A → Prop) (l : list A) :
  (∀ x y, x ∈ l → y ∈ l → R x y → R' x y) →
  StronglySorted R l → StronglySorted R' l.
Proof.
  intros Himpl Hsorted.
  induction Hsorted as [|x l Hl IH Hall]; constructor.
  - apply IH. intros y z Hy Hz. apply Himpl; by right.
  - rewrite Forall_forall in Hall |- *. intros y Hy.
    apply Himpl; [left|by right|by apply Hall].
Qed.

Lemma StronglySorted_rev {A : Type} (R : A → A → Prop) (l : list A) :
  StronglySorted (flip R) l → StronglySorted R (reverse l).
Proof.
  induction 1 as [|x l Hl IH Hall]; [constructor|]. rewrite reverse_cons.
  apply StronglySorted_app. split; [|split; [done|repeat constructor]].
  intros y z Hy Hz. apply list_elem_of_singleton in Hz as ->.
  rewrite Forall_forall in Hall. apply Hall. by apply elem_of_reverse.
Qed.

(** * The contract of the sort *)

Lemma Consistent_at {A : Type} (comparefn : A → A → JsNumber) (l : list A)
    (a b c : A) :
  Consistent comparefn l → a ∈ l → b ∈ l → c ∈ l →
  ConsistentAt comparefn a b c.
Proof.
  unfold Consistent. rewrite Forall_forall. intros Hcons Ha Hb Hc.
  specialize (Hcons a Ha). rewrite Forall_forall in Hcons.
  specialize (Hcons b Hb). rewrite Forall_forall in Hcons.
  by apply Hcons.
Qed.

Lemma Consistent_intro {A : Type} (comparefn : A → A → JsNumber) (l : list A) :
  (∀ a b c, a ∈ l → b ∈ l → c ∈ l → ConsistentAt comparefn a b c) →
  Consistent comparefn l.
Proof.
  intros Hat. unfold Consistent.
  rewrite Forall_forall. intros a Ha.
  rewrite Forall_forall. intros b Hb.
  rewrite Forall_forall. intros c Hc. by apply Hat.
Qed.

(** A comparator consistent for an array is consistent for any array of
    elements of it. *)
Lemma Consistent_subset {A : Type} (comparefn : A → A → JsNumber)
    (l l' : list A) :
  (∀ x, x ∈ l' → x ∈ l) → Consistent comparefn l → Consistent comparefn l'.
Proof.
  intros Hsub Hcons. apply Consistent_intro. intros a b c Ha Hb Hc.
  apply (Consistent_at comparefn l); auto.
Qed.

Section ConsistentOrder.

Context {A : Type}.
Variable comparefn : A → A → JsNumber.
Variable l : list A.
Hypothesis comparefn_consistent : Consistent comparefn l.

Lemma consistent_refl (a : A) : a ∈ l → sortCompare (comparefn a a) = 0.
Proof.
  intros Ha.
  by destruct (Consistent_at _ _ a a a comparefn_consistent Ha Ha Ha)
    as (_ & Hrefl & _).
Qed.

Lemma consistent_sym (a b : A) :
  a ∈ l → b ∈ l →
  sortCompare (comparefn a b) = 0 → sortCompare (comparefn b a) = 0.
Proof.
  intros Ha Hb.
  by destruct (Consistent_at _ _ a b a comparefn_consistent Ha Hb Ha)
    as (_ & _ & Hsym & _).
Qed.

Lemma consistent_eq_trans (a b c : A) :
  a ∈ l → b ∈ l → c ∈ l →
  sortCompare (comparefn a b) = 0 → sortCompare (comparefn b c) = 0 →
  sortCompare (comparefn a c) = 0.
Proof.
  intros Ha Hb Hc.
  by destruct (Consistent_at _ _ a b c comparefn_consistent Ha Hb Hc)
    as (_ & _ & _ & Htrans & _).
Qed.

(** Of two elements one is before the other exactly when the other is
    after it. *)
Lemma consistent_flip (a b : A) :
  a ∈ l → b ∈ l →
  (sortCompare (comparefn a b) < 0 → sortCompare (comparefn b a) > 0)
  ∧ (sortCompare (comparefn a b) > 0 → sortCompare (comparefn b a) < 0).
Proof.
  intros Ha Hb.
  pose proof (consistent_refl a Ha) as Hrefl.
  pose proof (consistent_sym b a Hb Ha) as Hsym.
  destruct (Consistent_at _ _ a b a comparefn_consistent Ha Hb Ha)
    as (_ & _ & _ & _ & Hlt & Hgt).
  lia.
Qed.

Lemma consistent_le_trans (a b c : A) :
  a ∈ l → b ∈ l → c ∈ l →
  sortCompare (comparefn a b) ≤ 0 → sortCompare (comparefn b c) ≤ 0 →
  sortCompare (comparefn a c) ≤ 0.
Proof.
  intros Ha Hb Hc Hab Hbc.
  destruct (Consistent_at _ _ a b c comparefn_consistent Ha Hb Hc)
    as (_ & _ & _ & Heq & Hlt & _).
  destruct (Consistent_at _ _ c a b comparefn_consistent Hc Ha Hb)
    as (_ & _ & _ & _ & Hcab & _).
  destruct (Consistent_at _ _ b c a comparefn_consistent Hb Hc Ha)
    as (_ & _ & _ & _ & Hbca & _).
  pose proof (consistent_flip a c Ha Hc) as [_ Hac].
  pose proof (consistent_flip a b Ha Hb) as [Hab' _].
  pose proof (consistent_flip b c Hb Hc) as [Hbc' _].
  pose proof (consistent_sym b c Hb Hc) as Hsbc.
  pose proof (consistent_sym a b Ha Hb) as Hsab.
  pose proof (consistent_sym c b Hc Hb) as Hscb.
  pose proof (consistent_sym b a Hb Ha) as Hsba.
  lia.
Qed.

(** The insertion sort of a consistently compared array is in order and
    keeps each class of equal elements in its order. *)
Lemma arraySort_sorted :
  StronglySorted (λ a b, sortCompare (comparefn a b) ≤ 0) (arraySort comparefn l).
Proof.
  unfold arraySort.
  apply (insertionSort_StronglySorted (λ a b, sortCompare (comparefn a b))).
  - intros x y Hx Hy Hgt.
    pose proof (consistent_flip x y Hx Hy) as [_ Hflip]. specialize (Hflip Hgt). lia.
  - intros x y z. apply consistent_le_trans.
Qed.

Lemma arraySort_stable (x : A) :
  x ∈ l →
  filter (λ y, sortCompare (comparefn x y) = 0) (arraySort comparefn l)
  = filter (λ y, sortCompare (comparefn x y) = 0) l.
Proof.
  intros Hx. unfold arraySort.
  apply (insertionSort_stable (λ a b, sortCompare (comparefn a b))).
  intros y z Hy Hz Hxy Hxz. simpl.
  apply (consistent_eq_trans y x z); [done..| |done].
  by apply consistent_sym.
Qed.

(** Two arrangements of the elements that are both in order and both keep
    the classes of equal elements in the same order are the same. *)
Lemma stable_sorted_unique (l1 l2 : list A) :
  (∀ x, x ∈ l1 → x ∈ l) →
  l1 ≡ₚ l2 →
  StronglySorted (λ a b, sortCompare (comparefn a b) ≤ 0) l1 →
  StronglySorted (λ a b, sortCompare (comparefn a b) ≤ 0) l2 →
  (∀ x, x ∈ l →
     filter (λ y, sortCompare (comparefn x y) = 0) l1
     = filter (λ y, sortCompare (comparefn x y) = 0) l2) →
  l1 = l2.
Proof.
  revert l2. induction l1 as [|x1 l1 IH]; intros l2 Hsub Hperm Hs1 Hs2 Hclass.
  { symmetry. by apply Permutation_nil. }
  destruct l2 as [|x2 l2].
  { by apply Permutation_nil_r in Hperm. }
  apply StronglySorted_inv in Hs1 as [Hs1 Hall1].
  apply StronglySorted_inv in Hs2 as [Hs2 Hall2].
  rewrite Forall_forall in Hall1, Hall2.
  assert (H1 : x1 ∈ l) by (apply Hsub; left).
  assert (H2 : x2 ∈ l).
  { apply Hsub. rewrite Hperm. left. }
  assert (H12 : sortCompare (comparefn x1 x2) ≤ 0).
  { assert (Hin : x2 ∈ x1 :: l1) by (rewrite Hperm; left).
    apply elem_of_cons in Hin as [-> | Hin]; [|by apply Hall1].
    by rewrite consistent_refl. }
  assert (H21 : sortCompare (comparefn x2 x1) ≤ 0).
  { assert (Hin : x1 ∈ x2 :: l2) by (rewrite <- Hperm; left).
    apply elem_of_cons in Hin as [-> | Hin]; [|by apply Hall2].
    by rewrite consistent_refl. }
  assert (Heq : sortCompare (comparefn x1 x2) = 0).
  { pose proof (consistent_flip x1 x2 H1 H2) as [Hflip _]. lia. }
  assert (Hhead : x1 = x2).
  { pose proof (Hclass x1 H1) as Hc.
    rewrite !filter_cons in Hc.
    rewrite decide_True in Hc by by apply consistent_refl.
    rewrite decide_True in Hc by done.
    by injection Hc. }
  subst x2. f_equal. apply IH.
  - intros x Hx. apply Hsub. by right.
  - by apply (inj (x1 ::.)).
  - done.
  - done.
  - intros x Hx. pose proof (Hclass x Hx) as Hc.
    rewrite !filter_cons in Hc. case_decide; [by injection Hc|done].
Qed.

End ConsistentOrder.

(** The reference sort meets the contract. *)
Lemma arraySort_conforming : ConformingSort arraySort.
Proof.
  split.
  - intros comparefn l. apply insertionSort_Permutation.
  - intros comparefn l Hcons. by apply arraySort_sorted.
  - intros comparefn l Hcons x Hx. by apply arraySort_stable.
Qed.

(** On a consistently compared array every conforming sort returns what
    the reference sort returns: the contract leaves no choice there. *)
Lemma conforming_sort_unique sort (comparefn : row → row → JsNumber)
    (l : list row) :
  ConformingSort sort → Consistent comparefn l →
  sort comparefn l = arraySort comparefn l.
Proof.
  intros Hconf Hcons.
  apply (stable_sorted_unique comparefn l Hcons).
  - intros x. by rewrite (conforming_Permutation sort Hconf).
  - rewrite (conforming_Permutation sort Hconf).
    symmetry. apply insertionSort_Permutation.
  - by apply (conforming_sorted sort Hconf).
  - by apply arraySort_sorted.
  - intros x Hx.
    rewrite (conforming_stable sort Hconf) by done.
    symmetry. by apply arraySort_stable.
Qed.

Lemma reversingSort_conforming : ConformingSort reversingSort.
Proof.
  split; unfold reversingSort.
  - intros comparefn l. case_decide.
    + apply insertionSort_Permutation.
    + apply reverse_Permutation.
  - intros comparefn l Hcons. rewrite decide_True by done.
    by apply arraySort_sorted.
  - intros comparefn l Hcons x Hx. rewrite decide_True by done.
    by apply arraySort_stable.
Qed.

(** * The derived view under the contract *)

Section View.

Variable sort : (row → row → JsNumber) → list row → list row.
Variable localeCompare : string → string → Z.
Variable toStr : value → string.
Hypothesis sort_conforming : ConformingSort sort.

(** The derived view holds the rows of the data, each as often. *)
Lemma sortedData_Permutation (props : DataTableProps) (st : SortState.t) :
  sortedData sort localeCompare toStr props st ≡ₚ data props.
Proof.
  unfold sortedData. destruct (keyFalsy _ || _); [done|].
  case_match; [|done]. apply (conforming_Permutation sort sort_conforming).
Qed.

Lemma sortedData_sortsBy props st column d :
  sortsBy props st column d →
  sortedData sort localeCompare toStr props st
  = sort (compareRows localeCompare toStr column (Some d)) (data props).
Proof.
  intros (Hkey & Hdir & Hfind). unfold sortedData.
  by rewrite Hkey, Hdir, Hfind.
Qed.

Lemma compareRows_refl_value column direction (x y : row) :
  getField y (Column.dataIndex column) = getField x (Column.dataIndex column) →
  compareRows localeCompare toStr column direction x y
  = compareRows localeCompare toStr column direction x x.
Proof. unfold compareRows. by intros ->. Qed.

(** C6, amended: when the comparator of the active column and direction is
    a consistent comparison function for the rows of the data, the rows
    that the comparator holds equal to a given row, and so the rows that
    carry one and the same value in that column, appear in the derived
    view in the relative order they have in the data, whatever the
    direction. *)
Theorem sortedData_stable (props : DataTableProps) (st : SortState.t)
    (column : Column.t) :
  arrayFind (λ col, keyMatches (Column.key col) (SortState.key st)) (columns props)
  = Some column →
  Consistent (compareRows localeCompare toStr column (SortState.direction st))
             (data props) →
  (∀ x, x ∈ data props →
     filter (λ y, sortCompare (compareRows localeCompare toStr column
                                 (SortState.direction st) x y) = 0)
            (sortedData sort localeCompare toStr props st)
     = filter (λ y, sortCompare (compareRows localeCompare toStr column
                                   (SortState.direction st) x y) = 0)
              (data props))
  ∧ (∀ v,
       filter (λ record, getField record (Column.dataIndex column) = v)
              (sortedData sort localeCompare toStr props st)
       = filter (λ record, getField record (Column.dataIndex column) = v)
                (data props)).
Proof.
  intros Hfind Hcons.
  set (cmp := compareRows localeCompare toStr column (SortState.direction st)).
  assert (Hclass : ∀ x, x ∈ data props →
            filter (λ y, sortCompare (cmp x y) = 0)
                   (sortedData sort localeCompare toStr props st)
            = filter (λ y, sortCompare (cmp x y) = 0) (data props)).
  { intros x Hx. unfold sortedData.
    destruct (keyFalsy _ || _); [done|]. rewrite Hfind.
    by apply (conforming_stable sort sort_conforming). }
  split; [done|]. intros v.
  set (P := λ record : row, getField record (Column.dataIndex column) = v).
  destruct (filter P (data props)) as [|x rest] eqn:Hdata.
  - apply Permutation_nil_r.
    by rewrite (sortedData_Permutation props st), Hdata.
  - assert (Hin : x ∈ filter P (data props)) by (rewrite Hdata; left).
    apply list_elem_of_filter in Hin as [HPx Hx].
    rewrite <- Hdata.
    set (Q := λ y : row, sortCompare (cmp x y) = 0).
    assert (HPQ : ∀ y, P y → Q y).
    { intros y HPy. unfold Q, cmp. rewrite compareRows_refl_value.
      - by apply (consistent_refl _ _ Hcons).
      - unfold P in HPx, HPy. congruence. }
    rewrite <- (list_filter_filter_l P Q
                  (sortedData sort localeCompare toStr props st)) by done.
    rewrite <- (list_filter_filter_l P Q (data props)) by done.
    unfold Q. by rewrite (Hclass x Hx).
Qed.

End View.

Lemma codeUnitCompare_refl (s : string) : codeUnitCompare s s = 0.
Proof.
  unfold codeUnitCompare.
  assert (Hrefl : String.compare s s = Eq).
  { induction s as [|c s IH]; simpl; [done|].
    unfold Ascii.compare. by rewrite N.compare_refl. }
  by rewrite Hrefl.
Qed.

Lemma Consistent_by_decide {A : Type} (comparefn : A → A → JsNumber) (l : list A) :
  bool_decide (Consistent comparefn l) = true → Consistent comparefn l.
Proof. apply bool_decide_eq_true_1. Qed.

Lemma sortsBy_age (rows : list row) (d : SortDirection) :
  sortsBy (tableOf rows) (SortState.mk (Some "age") (Some d)) ageColumn d.
Proof. by repeat split. Qed.

(** C6 does not hold as specified.  On an age column holding 10, 9, "2",
    10 the comparator is not consistent (9 before 10 as numbers, 10 before
    "2" and "2" before 9 as strings), so the order is the engine's choice:
    a conforming sort that reverses such an array puts the second row of
    age 10 before the first. *)
Lemma stability_counterexample :
  ConformingSort reversingSort
  ∧ (λ record, getField record "id")
      <$> sortedData reversingSort codeUnitCompare primitiveToStr
            (tableOf mixedUsers) (sortAsc "age")
    = [VNumber 3; VNumber 2; VNumber 1; VNumber 0]
  ∧ (λ record, getField record "id")
      <$> filter (λ record, getField record "age" = VNumber 10)
            (sortedData reversingSort codeUnitCompare primitiveToStr
               (tableOf mixedUsers) (sortAsc "age"))
    = [VNumber 3; VNumber 0]
  ∧ (λ record, getField record "id")
      <$> filter (λ record, getField record "age" = VNumber 10) mixedUsers
    = [VNumber 0; VNumber 3].
Proof.
  split; [apply reversingSort_conforming|].
  repeat split; by vm_compute.
Qed.

Lemma sortedData_stable_witness :
  (λ record, getField record "id")
    <$> filter (λ record, getField record (Column.dataIndex ageColumn) = VNumber 30)
          (sortedData arraySort codeUnitCompare primitiveToStr (tableOf tiedUsers)
             (sortDesc "age"))
  = [VNumber 1; VNumber 3].
Proof.
  destruct (sortedData_stable arraySort codeUnitCompare primitiveToStr
              arraySort_conforming (tableOf tiedUsers) (sortDesc "age") ageColumn)
    as [_ Hsame].
  - reflexivity.
  - apply Consistent_by_decide. by vm_compute.
  - rewrite Hsame. by vm_compute.
Defined.

(** The scenarios of the component's tests and documentation, run with the
    reference sort. *)
Example sortedData_age_asc :
  (λ record, getField record "id")
    <$> sortedData arraySort codeUnitCompare primitiveToStr mockProps (sortAsc "age")
  = [VNumber 2; VNumber 1; VNumber 3].
Proof. by vm_compute. Qed.

Example sortedData_age_desc :
  (λ record, getField record "id")
    <$> sortedData arraySort codeUnitCompare primitiveToStr mockProps (sortDesc "age")
  = [VNumber 3; VNumber 1; VNumber 2].
Proof. by vm_compute. Qed.

Example sortedData_name_asc :
  (λ record, getField record "name")
    <$> sortedData arraySort codeUnitCompare primitiveToStr mockProps (sortAsc "name")
  = [VString "Bob Johnson"; VString "Jane Smith"; VString "John Doe"].
Proof. by vm_compute. Qed.

Example sortedData_tied_asc :
  (λ record, getField record "id")
    <$> sortedData arraySort codeUnitCompare primitiveToStr (tableOf tiedUsers)
          (sortAsc "age")
  = [VNumber 2; VNumber 1; VNumber 3].
Proof. by vm_compute. Qed.

Example sortedData_tied_desc :
  (λ record, getField record "id")
    <$> sortedData arraySort codeUnitCompare primitiveToStr (tableOf tiedUsers)
          (sortDesc "age")
  = [VNumber 1; VNumber 3; VNumber 2].
Proof. by vm_compute. Qed.

(** A [NaN] cell: the comparator returns [NaN] against a number, and is not
    a consistent comparison function for the column. *)
Example compareValues_NaN :
  compareValues codeUnitCompare primitiveToStr (Some asc) (VNumber 3) VNaN = NaN
  ∧ compareValues codeUnitCompare primitiveToStr (Some asc) VInvalidDate (VDate 5)
    = NaN
  ∧ bool_decide
      (Consistent (compareRows codeUnitCompare primitiveToStr ageColumn (Some asc))
                  nanUsers) = false.
Proof. repeat split; by vm_compute. Qed.

Example toggle_rows_1_3 :
  let first := handleRowSelect mockProps (VNumber 1) (user 1 "John Doe" 30) initialState in
  let second := handleRowSelect mockProps (VNumber 3) (user 3 "Bob Johnson" 35) first.1 in
  first.2 = Some [user 1 "John Doe" 30]
  ∧ second.2 = Some [user 1 "John Doe" 30; user 3 "Bob Johnson" 35]
  ∧ selectedRows second.1 = {[ VNumber 1; VNumber 3 ]}.
Proof. repeat split; by vm_compute. Qed.

Example select_all_then_none :
  let first := handleSelectAll mockProps initialState in
  let second := handleSelectAll mockProps first.1 in
  first.2 = Some mockUsers
  ∧ isAllSelected mockProps first.1 = true
  ∧ second.2 = Some []
  ∧ second.1 = initialState.
Proof. repeat split; by vm_compute. Qed.

(** * Order of the derived view *)

Lemma isAsc_asc : isAsc (Some asc) = true.
Proof. reflexivity. Qed.

Lemma isAsc_desc : isAsc (Some desc) = false.
Proof. reflexivity. Qed.

Section Keyed.

Context {K : Type}.
Variable c : K → K → Z.
Hypothesis c_consistent : ∀ x y z, ConsistentAt (λ a b, Finite (c a b)) x y z.

(** With absent cells put first under ascending and last under descending,
    a consistent order of the present values stays consistent. *)
Lemma keyedCompare_consistent direction (a b d : option K) :
  ConsistentAt (λ x y, Finite (keyedCompare c direction x y)) a b d.
Proof.
  unfold ConsistentAt. split; [done|]. simpl.
  destruct a as [x|], b as [y|], d as [z|]; simpl;
    try (pose proof (c_consistent x y z) as (_ & ? & ? & ? & ? & ?));
    try (pose proof (c_consistent x y x) as (_ & ? & ? & ? & ? & ?));
    try (pose proof (c_consistent x x x) as (_ & ? & ? & ? & ? & ?));
    simpl in *; destruct (isAsc direction); lia.
Qed.

Lemma Consistent_keyed {A : Type} (comparefn : A → A → JsNumber)
    (key : A → option K) direction (l : list A) :
  (∀ a b, a ∈ l → b ∈ l →
     comparefn a b = Finite (keyedCompare c direction (key a) (key b))) →
  Consistent comparefn l.
Proof.
  intros Hkey. apply Consistent_intro. intros a b d Ha Hb Hd.
  pose proof (keyedCompare_consistent direction (key a) (key b) (key d)) as Hcons.
  unfold ConsistentAt in *. simpl in Hcons.
  by rewrite !Hkey by done.
Qed.

End Keyed.

Lemma difference_consistent (x y z : Z) :
  ConsistentAt (λ a b, Finite (a - b)) x y z.
Proof. unfold ConsistentAt. simpl. split; [done|]. lia. Qed.

Section ViewOrder.

Variable sort : (row → row → JsNumber) → list row → list row.
Variable localeCompare : string → string → Z.
Variable toStr : value → string.
Hypothesis sort_conforming : ConformingSort sort.

(** X1: the derived view holds the rows of the data, each as often as the
    data does: it has the length of the data and the same members,
    whatever the sort state and whatever the comparator. *)
Theorem sortedData_same_rows (props : DataTableProps) (st : SortState.t) :
  sortedData sort localeCompare toStr props st ≡ₚ data props
  ∧ length (sortedData sort localeCompare toStr props st) = length (data props)
  ∧ (∀ record, record ∈ sortedData sort localeCompare toStr props st
               ↔ record ∈ data props).
Proof.
  pose proof (sortedData_Permutation sort localeCompare toStr sort_conforming
                props st) as Hperm.
  split; [done|]. split.
  - by rewrite Hperm.
  - intros record. by rewrite Hperm.
Qed.

Lemma compareRows_number_cells column direction (a b : row) :
  uniformCell NumberCells (cellOf column a) →
  uniformCell NumberCells (cellOf column b) →
  compareRows localeCompare toStr column direction a b
  = Finite (keyedCompare (λ x y, x - y) direction
              (numberCell column a) (numberCell column b)).
Proof.
  unfold compareRows, numberCell, cellOf, uniformCell.
  destruct (getField a _), (getField b _); simpl;
    intros [Ha | [? Ha]] [Hb | [? Hb]]; try discriminate;
    unfold compareValues; simpl; destruct (isAsc direction); f_equal; lia.
Qed.

Lemma compareRows_date_cells column direction (a b : row) :
  uniformCell DateCells (cellOf column a) →
  uniformCell DateCells (cellOf column b) →
  compareRows localeCompare toStr column direction a b
  = Finite (keyedCompare (λ x y, x - y) direction
              (dateCell column a) (dateCell column b)).
Proof.
  unfold compareRows, dateCell, cellOf, uniformCell.
  destruct (getField a _), (getField b _); simpl;
    intros [Ha | [? Ha]] [Hb | [? Hb]]; try discriminate;
    unfold compareValues; simpl; destruct (isAsc direction); f_equal; lia.
Qed.

Lemma compareRows_string_cells column direction (a b : row) :
  uniformCell StringCells (cellOf column a) →
  uniformCell StringCells (cellOf column b) →
  compareRows localeCompare toStr column direction a b
  = Finite (keyedCompare localeCompare direction
              (stringCell column a) (stringCell column b)).
Proof.
  unfold compareRows, stringCell, cellOf, uniformCell.
  destruct (getField a _), (getField b _); simpl;
    intros [Ha | [? Ha]] [Hb | [? Hb]]; try discriminate;
    unfold compareValues; simpl; by destruct (isAsc direction).
Qed.

(** On a column of one kind the comparator is a consistent comparison
    function, in either direction. *)
Lemma compareRows_uniform column direction kind (l : list row) :
  (kind = StringCells →
   ∀ s t u, ConsistentAt (λ a b, Finite (localeCompare a b)) s t u) →
  Forall (λ record, uniformCell kind (cellOf column record)) l →
  Consistent (compareRows localeCompare toStr column direction) l.
Proof.
  intros Hstrings Hkind. rewrite Forall_forall in Hkind.
  destruct kind.
  - apply (Consistent_keyed (λ x y, x - y) difference_consistent _
             (numberCell column) direction).
    intros a b Ha Hb. apply compareRows_number_cells; by apply Hkind.
  - apply (Consistent_keyed (λ x y, x - y) difference_consistent _
             (dateCell column) direction).
    intros a b Ha Hb. apply compareRows_date_cells; by apply Hkind.
  - apply (Consistent_keyed localeCompare (Hstrings eq_refl) _
             (stringCell column) direction).
    intros a b Ha Hb. apply compareRows_string_cells; by apply Hkind.
Qed.

(** X2: on a sorted column whose present cells are all finite numbers, or
    all valid dates, or all strings under a [localeCompare] that is itself
    a consistent comparison, the comparator is a consistent comparison
    function for the rows, so that no row of the view stands before a row
    the comparator puts before it. *)
Theorem sortedData_uniform_sorted (props : DataTableProps) (st : SortState.t)
    (column : Column.t) (d : SortDirection) (kind : CellKind) :
  sortsBy props st column d →
  (kind = StringCells →
   ∀ s t u, ConsistentAt (λ a b, Finite (localeCompare a b)) s t u) →
  Forall (λ record, uniformCell kind (cellOf column record)) (data props) →
  Consistent (compareRows localeCompare toStr column (Some d)) (data props)
  ∧ StronglySorted
      (λ a b, sortCompare (compareRows localeCompare toStr column (Some d) a b) ≤ 0)
      (sortedData sort localeCompare toStr props st).
Proof.
  intros Hsorts Hstrings Hkind.
  pose proof (compareRows_uniform column (Some d) kind _ Hstrings Hkind) as Hcons.
  split; [done|].
  rewrite (sortedData_sortsBy sort localeCompare toStr _ _ _ _ Hsorts).
  by apply (conforming_sorted sort sort_conforming).
Qed.

Lemma numberCell_uniform column (record : row) :
  is_Some (numberCell column record) →
  uniformCell NumberCells (cellOf column record).
Proof.
  unfold numberCell, uniformCell. intros [n Hn]. right.
  destruct (cellOf column record); try discriminate. by eexists.
Qed.

Lemma compareRows_numbers column d (a b : row) (n m : Z) :
  numberCell column a = Some n → numberCell column b = Some m →
  compareRows localeCompare toStr column (Some d) a b
  = match d with asc => Finite (n - m) | desc => Finite (m - n) end.
Proof.
  intros Hn Hm.
  rewrite compareRows_number_cells by (apply numberCell_uniform; by eexists).
  rewrite Hn, Hm. simpl. destruct d; simpl; f_equal; lia.
Qed.

Lemma compareRows_numberLe column d (a b : row) :
  is_Some (numberCell column a) → is_Some (numberCell column b) →
  sortCompare (compareRows localeCompare toStr column (Some d) a b) ≤ 0 →
  match d with
  | asc => numberLe column
  | desc => flip (numberLe column)
  end a b.
Proof.
  intros [n Hn] [m Hm] Hle.
  rewrite (compareRows_numbers _ _ _ _ _ _ Hn Hm) in Hle.
  destruct d; simpl in Hle; [|unfold flip]; do 2 eexists;
    (split; [done|split; [done|lia]]).
Qed.

(** The view of a column of finite numbers is in numeric order. *)
Lemma sortedData_numberLe (props : DataTableProps) (st : SortState.t)
    (column : Column.t) (d : SortDirection) :
  sortsBy props st column d →
  Forall (λ record, is_Some (numberCell column record)) (data props) →
  StronglySorted
    (match d with
     | asc => numberLe column
     | desc => flip (numberLe column)
     end)
    (sortedData sort localeCompare toStr props st).
Proof.
  intros Hsorts Hnum.
  assert (Hcons : Consistent (compareRows localeCompare toStr column (Some d))
                    (data props)).
  { apply (compareRows_uniform column (Some d) NumberCells); [done|].
    eapply Forall_impl; [exact Hnum|]. apply numberCell_uniform. }
  pose proof (sortedData_Permutation sort localeCompare toStr sort_conforming
                props st) as Hperm.
  rewrite Forall_forall in Hnum.
  eapply StronglySorted_weaken.
  - intros x y Hx Hy. rewrite Hperm in Hx, Hy.
    apply compareRows_numberLe; by apply Hnum.
  - rewrite (sortedData_sortsBy sort localeCompare toStr _ _ _ _ Hsorts).
    by apply (conforming_sorted sort sort_conforming).
Qed.

(** X3: when every row has a finite number in the sorted column, the view
    is in numeric order: under ascending no row has a greater number than
    a later row, under descending none has a smaller one.  (A [NaN] or
    infinite cell is not a finite number.) *)
Theorem sortedData_numbers (props : DataTableProps) (st : SortState.t)
    (column : Column.t) (d : SortDirection) :
  sortsBy props st column d →
  Forall (λ record, ∃ n, cellOf column record = VNumber n) (data props) →
  StronglySorted
    (match d with
     | asc => numberLe column
     | desc => flip (numberLe column)
     end)
    (sortedData sort localeCompare toStr props st)
  ∧ Forall (λ record, ∃ n, cellOf column record = VNumber n)
           (sortedData sort localeCompare toStr props st).
Proof.
  intros Hsorts Hnum. split.
  - apply sortedData_numberLe; [done|].
    eapply Forall_impl; [exact Hnum|].
    intros record [n Hn]. exists n. unfold numberCell. by rewrite Hn.
  - by rewrite (sortedData_Permutation sort localeCompare toStr sort_conforming
                  props st).
Qed.

(** ** Absent cells *)

Lemma compareValues_absent_l d (a b : value) :
  isNullish a = true →
  compareValues localeCompare toStr (Some d) a b
  = if isNullish b then Finite 0
    else if isAsc (Some d) then Finite (-1) else Finite 1.
Proof. intros Ha. unfold compareValues. rewrite Ha. by destruct (isNullish b). Qed.

Lemma compareValues_absent_r d (a b : value) :
  isNullish a = false → isNullish b = true →
  compareValues localeCompare toStr (Some d) a b
  = if isAsc (Some d) then Finite 1 else Finite (-1).
Proof. intros Ha Hb. unfold compareValues. by rewrite Ha, Hb. Qed.

(** The insertion sort puts the absent cells in a block, whatever the
    comparator does on the present ones. *)
Lemma arraySort_absent_block (column : Column.t) (d : SortDirection)
    (l : list row) :
  let absent := λ record, isNullish (cellOf column record) = true in
  let present := λ record, isNullish (cellOf column record) = false in
  let sortedPresent :=
    arraySort (compareRows localeCompare toStr column (Some d))
              (filter present l) in
  arraySort (compareRows localeCompare toStr column (Some d)) l
  = match d with
    | asc => filter absent l ++ sortedPresent
    | desc => sortedPresent ++ filter absent l
    end.
Proof.
  intros absent present sortedPresent. subst sortedPresent.
  unfold arraySort.
  set (order := λ a b : row,
         sortCompare (compareRows localeCompare toStr column (Some d) a b)).
  assert (Hsplit : ∀ x, {absent x} + {present x}).
  { intros x. unfold absent, present. destruct (isNullish (cellOf column x)); auto. }
  assert (Hexcl : ∀ x, absent x → ¬ present x).
  { unfold absent, present. intros x ->. discriminate. }
  assert (Hexcl' : ∀ x, present x → ¬ absent x).
  { unfold absent, present. intros x ->. discriminate. }
  assert (Hpresent : ∀ (l : list row) (y : row),
            y ∈ insertionSort order (filter present l) → present y).
  { intros l' y Hy. apply elem_of_insertionSort, list_elem_of_filter in Hy. tauto. }
  assert (Habsent : ∀ (l : list row) (y : row), y ∈ filter absent l → absent y).
  { intros l' y Hy. apply list_elem_of_filter in Hy. tauto. }
  assert (Hhead : ∀ (l : list row) y, head l = Some y → y ∈ l).
  { intros [|z l'] y; simpl; [done|]. intros [= ->]. left. }
  induction l as [|x l IH]; simpl.
  { by destruct d. }
  fold (insertionSort order l). rewrite IH. clear IH.
  destruct (Hsplit x) as [Hx | Hx].
  - rewrite (filter_cons_True absent x) by done.
    rewrite (filter_cons_False present x) by auto.
    destruct d.
    + apply sortInsert_head. intros y Hy. unfold order, compareRows.
      fold (cellOf column x) (cellOf column y).
      rewrite compareValues_absent_l by done.
      destruct (isNullish (cellOf column y)); simpl; lia.
    + rewrite sortInsert_pass.
      * f_equal. apply sortInsert_head. intros y Hy.
        apply Hhead, Habsent in Hy. unfold order, compareRows.
        fold (cellOf column x) (cellOf column y).
        rewrite compareValues_absent_l by done. rewrite Hy. simpl. lia.
      * intros y Hy. apply Hpresent in Hy. unfold order, compareRows.
        fold (cellOf column x) (cellOf column y).
        rewrite compareValues_absent_l by done. rewrite Hy. simpl. lia.
  - rewrite (filter_cons_False absent x) by auto.
    rewrite (filter_cons_True present x) by done.
    simpl. fold (insertionSort order (filter present l)).
    destruct d.
    + apply sortInsert_pass. intros y Hy. apply Habsent in Hy.
      unfold order, compareRows. fold (cellOf column x) (cellOf column y).
      rewrite compareValues_absent_r by done. simpl. lia.
    + apply sortInsert_stop. intros y Hy. apply Hhead, Habsent in Hy.
      unfold order, compareRows. fold (cellOf column x) (cellOf column y).
      rewrite compareValues_absent_r by done. simpl. lia.
Qed.

(** X4: when the comparator is a consistent comparison function for the
    rows of the data, the view under ascending is the rows with an absent
    cell, in data order, followed by the sorted rows with a present cell,
    and under descending the sorted rows with a present cell followed by
    the rows with an absent cell, in data order. *)
Theorem sortedData_absent_block (props : DataTableProps) (st : SortState.t)
    (column : Column.t) (d : SortDirection) :
  sortsBy props st column d →
  Consistent (compareRows localeCompare toStr column (Some d)) (data props) →
  let absent := λ record, isNullish (cellOf column record) = true in
  let present := λ record, isNullish (cellOf column record) = false in
  let sortedPresent :=
    sort (compareRows localeCompare toStr column (Some d))
         (filter present (data props)) in
  sortedData sort localeCompare toStr props st
  = match d with
    | asc => filter absent (data props) ++ sortedPresent
    | desc => sortedPresent ++ filter absent (data props)
    end.
Proof.
  intros Hsorts Hcons absent present sortedPresent. subst sortedPresent.
  rewrite (sortedData_sortsBy sort localeCompare toStr _ _ _ _ Hsorts).
  rewrite (conforming_sort_unique sort _ (data props)) by done.
  rewrite (conforming_sort_unique sort _ (filter present (data props))).
  - apply arraySort_absent_block.
  - done.
  - eapply Consistent_subset; [|exact Hcons].
    intros x Hx. apply list_elem_of_filter in Hx. tauto.
Qed.

End ViewOrder.

Lemma sortedData_same_rows_witness :
  length (sortedData reversingSort codeUnitCompare primitiveToStr
            (tableOf mixedUsers) (sortAsc "age")) = 4%nat.
Proof.
  by destruct (sortedData_same_rows reversingSort codeUnitCompare primitiveToStr
                 reversingSort_conforming (tableOf mixedUsers) (sortAsc "age"))
    as (_ & -> & _).
Defined.

Lemma sortedData_uniform_sorted_witness :
  StronglySorted
    (λ a b, sortCompare
              (compareRows codeUnitCompare primitiveToStr ageColumn (Some desc) a b) ≤ 0)
    (sortedData arraySort codeUnitCompare primitiveToStr (tableOf gappyUsers)
       (sortDesc "age")).
Proof.
  destruct (sortedData_uniform_sorted arraySort codeUnitCompare primitiveToStr
              arraySort_conforming (tableOf gappyUsers) (sortDesc "age")
              ageColumn desc NumberCells (sortsBy_age gappyUsers desc))
    as [_ Hsorted]; [discriminate| |done].
  change (data (tableOf gappyUsers)) with gappyUsers. unfold gappyUsers.
  repeat (apply Forall_cons; split;
          [first [left; reflexivity | right; eexists; reflexivity]|]).
  apply Forall_nil. done.
Defined.

Lemma sortedData_numbers_witness :
  StronglySorted (numberLe ageColumn)
    (sortedData arraySort codeUnitCompare primitiveToStr mockProps (sortAsc "age")).
Proof.
  destruct (sortedData_numbers arraySort codeUnitCompare primitiveToStr
              arraySort_conforming mockProps (sortAsc "age") ageColumn asc
              (sortsBy_age mockUsers asc)) as [Hsorted _]; [|done].
  repeat constructor; by eexists.
Defined.

Lemma sortedData_absent_block_witness :
  (λ record, getField record "id")
    <$> sortedData arraySort codeUnitCompare primitiveToStr (tableOf gappyUsers)
          (sortDesc "age")
  = [VNumber 1; VNumber 3; VNumber 2; VNumber 4].
Proof.
  rewrite (sortedData_absent_block arraySort codeUnitCompare primitiveToStr
             arraySort_conforming (tableOf gappyUsers) (sortDesc "age")
             ageColumn desc (sortsBy_age gappyUsers desc)).
  - by vm_compute.
  - apply Consistent_by_decide. by vm_compute.
Defined.


(** * Headers *)

Lemma nextSortState_key column prev (k : string) :
  SortState.key (nextSortState column prev) = Some k → Column.key column = k.
Proof.
  unfold nextSortState.
  destruct (keyMatches _ _); simpl; [|by intros [= ->]].
  destruct (SortState.direction prev) as [[|]|]; simpl; congruence.
Qed.

Lemma step_key props st ev (k : string) :
  SortState.key (sortState (step props st ev)) = Some k →
  SortState.key (sortState st) = Some k
  ∨ ∃ column, ev = ClickHeader column
              ∧ Column.sortable column = true ∧ Column.key column = k.
Proof.
  destruct ev as [column|key record|].
  - simpl. unfold handleSort.
    destruct (Column.sortable column) eqn:Hs; simpl; [|by left].
    intros Hk. right. exists column. eauto using nextSortState_key.
  - by left.
  - rewrite step_selection_sortState by done. by left.
Qed.

(** X5: whatever the events since the first render, the active sort key is
    the key of a sortable column whose header was clicked; a column that is
    not sortable never becomes the active one. *)
Theorem active_key_sortable (evs : list (DataTableProps * Event)) (k : string) :
  SortState.key (sortState (run initialState evs)) = Some k →
  ∃ props column,
    (props, ClickHeader column) ∈ evs
    ∧ Column.sortable column = true
    ∧ Column.key column = k.
Proof.
  assert (Hgen : ∀ st,
    SortState.key (sortState (run st evs)) = Some k →
    SortState.key (sortState st) = Some k
    ∨ ∃ props column, (props, ClickHeader column) ∈ evs
        ∧ Column.sortable column = true ∧ Column.key column = k).
  { induction evs as [|[props ev] evs IH]; intros st; [by left|].
    rewrite run_cons. intros Hk.
    destruct (IH _ Hk) as [Hstep | (props' & column & Hin & Hs & Hkey)].
    - destruct (step_key _ _ _ _ Hstep) as [Hst | (column & -> & Hs & Hkey)].
      + by left.
      + right. exists props, column. split; [left|done].
    - right. exists props', column. split; [by right|done]. }
  intros Hk. destruct (Hgen _ Hk) as [Hinit | Hclick]; [discriminate|done].
Qed.

Lemma active_key_sortable_witness :
  ∃ props column,
    (props, ClickHeader column)
      ∈ [(mockProps, ClickHeader statusColumn); (mockProps, ClickHeader ageColumn)]
    ∧ Column.sortable column = true
    ∧ Column.key column = "age".
Proof.
  apply (active_key_sortable
           [(mockProps, ClickHeader statusColumn); (mockProps, ClickHeader ageColumn)]).
  reflexivity.
Defined.

(** X6: in every reachable state a header announces [ascending] exactly
    when its column is sorted ascending and [descending] exactly when it is
    sorted descending, and the chevron painted active by [renderSortIcon]
    is the one for the announced direction. *)
Theorem header_rendering_consistent (column : Column.t) (st : State) :
  Reachable st →
  (ariaSort column (sortState st) = Some ariaAscending
   ↔ sortState st = sortAsc (Column.key column))
  ∧ (ariaSort column (sortState st) = Some ariaDescending
     ↔ sortState st = sortDesc (Column.key column))
  ∧ (∀ icon, renderSortIcon column (sortState st) = Some icon →
       (upActive icon = true
        ↔ ariaSort column (sortState st) = Some ariaAscending)
       ∧ (downActive icon = true
          ↔ ariaSort column (sortState st) = Some ariaDescending)).
Proof.
  intros Hreach. apply Reachable_shape in Hreach.
  unfold ariaSort, renderSortIcon.
  generalize dependent (sortState st). clear st. intros s Hreach.
  destruct (keyMatches (Column.key column) (SortState.key s)) eqn:Hm.
  - apply keyMatches_true in Hm.
    destruct Hreach as [|k|k]; simpl in Hm; [discriminate| |];
      injection Hm as ->; unfold sortAsc, sortDesc; simpl;
      rewrite ?isAsc_asc, ?isAsc_desc;
      (split; [done|]); (split; [done|]);
      intros icon; destruct (Column.sortable column); simpl; try done;
      intros [= <-]; simpl; done.
  - apply keyMatches_false in Hm.
    assert (Hasc : s ≠ sortAsc (Column.key column)).
    { intros Heq. rewrite Heq in Hm. by apply Hm. }
    assert (Hdesc : s ≠ sortDesc (Column.key column)).
    { intros Heq. rewrite Heq in Hm. by apply Hm. }
    split; [by destruct (Column.sortable column)|].
    split; [by destruct (Column.sortable column)|].
    intros icon. destruct (Column.sortable column); simpl; [|done].
    intros [= <-]; simpl. done.
Qed.

Lemma header_rendering_consistent_witness :
  ariaSort ageColumn (sortState (handleSort ageColumn (handleSort ageColumn initialState)))
  = Some ariaDescending.
Proof.
  destruct (header_rendering_consistent ageColumn
              (handleSort ageColumn (handleSort ageColumn initialState)))
    as (_ & Hdesc & _).
  - apply handleSort_Reachable, handleSort_Reachable, Reachable_init.
  - by apply Hdesc.
Defined.

(** * Header checkbox *)

Lemma size_within_allKeys props (selected : gset value) :
  NoDup (rowKeys props) → selected ⊆ allKeys props →
  (size selected ≤ length (data props))%nat
  ∧ (size selected = length (data props) ↔ selected = allKeys props).
Proof.
  intros Hnodup Hsub.
  pose proof (size_allKeys props Hnodup) as Hall.
  pose proof (subseteq_size _ _ Hsub) as Hle.
  split; [lia|]. split.
  - intros Hsize. apply set_subseteq_size_eq; [done|]. lia.
  - by intros ->.
Qed.

(** X7: the header checkbox is never both checked and indeterminate, and
    with an empty selection it is neither.  When the row identities are
    pairwise distinct and the selection holds only identities of the data
    set, it is checked exactly when the data set is not empty and every
    identity is selected, and indeterminate exactly when some but not all
    are. *)
Theorem header_checkbox_status (props : DataTableProps) (st : State) :
  isAllSelected props st && isIndeterminate props st = false
  ∧ (selectedRows st = ∅ →
       isAllSelected props st = false ∧ isIndeterminate props st = false)
  ∧ (NoDup (rowKeys props) → selectedRows st ⊆ allKeys props →
       (isAllSelected props st = true
        ↔ data props ≠ [] ∧ selectedRows st = allKeys props)
       ∧ (isIndeterminate props st = true
          ↔ selectedRows st ≠ ∅ ∧ selectedRows st ≠ allKeys props)).
Proof.
  unfold isAllSelected, isIndeterminate.
  split; [|split].
  - destruct (size (selectedRows st) =? length (data props))%nat eqn:Heq.
    + apply Nat.eqb_eq in Heq. rewrite Heq, Nat.ltb_irrefl.
      by rewrite !andb_false_r.
    + by rewrite andb_false_r.
  - intros ->. rewrite size_empty. simpl.
    split; [|done].
    destruct (data props); [done|]. reflexivity.
  - intros Hnodup Hsub.
    destruct (size_within_allKeys props _ Hnodup Hsub) as [Hle Hiff].
    rewrite !andb_true_iff, !Nat.ltb_lt, Nat.eqb_eq.
    assert (Hnonempty : (0 < size (selectedRows st))%nat ↔ selectedRows st ≠ ∅).
    { pose proof (size_non_empty_iff (selectedRows st)) as Hsz.
      unfold_leibniz. rewrite <- Hsz. lia. }
    assert (Hdata : (0 < length (data props))%nat ↔ data props ≠ []).
    { destruct (data props); simpl; [split; [lia|done]|split; [done|lia]]. }
    rewrite Hnonempty, Hdata, <- Hiff. split; [tauto|].
    split; intros [Hne Hsize]; (split; [done|lia]).
Qed.

Lemma NoDup_mockProps : NoDup (rowKeys mockProps).
Proof.
  change (rowKeys mockProps) with [VNumber 1; VNumber 2; VNumber 3].
  repeat constructor; rewrite ?elem_of_cons, ?elem_of_nil; intros Hin;
    repeat destruct Hin as [Hin | Hin]; done.
Qed.

Lemma header_checkbox_status_witness :
  isIndeterminate mockProps (mkState initialSortState {[ VNumber 2 ]}) = true
  ↔ ({[ VNumber 2 ]} : gset value) ≠ ∅
    ∧ ({[ VNumber 2 ]} : gset value) ≠ allKeys mockProps.
Proof.
  destruct (header_checkbox_status mockProps (mkState initialSortState {[ VNumber 2 ]}))
    as (_ & _ & Hstatus).
  apply Hstatus.
  - apply NoDup_mockProps.
  - simpl. apply singleton_subseteq_l, elem_of_allKeys.
    change (rowKeys mockProps) with [VNumber 1; VNumber 2; VNumber 3].
    rewrite !elem_of_cons. auto.
Defined.

Lemma handleSelectAll_selectedRows props st :
  selectedRows (handleSelectAll props st).1
  = if (size (selectedRows st) =? length (data props))%nat then ∅
    else allKeys props.
Proof. unfold handleSelectAll. by case_match. Qed.

(** X8: with pairwise distinct row identities, select-all never leaves the
    header checkbox indeterminate, and leaves it checked exactly when the
    data set is not empty and the number of selected identities differed
    from the number of rows before the click. *)
Theorem handleSelectAll_header (props : DataTableProps) (st : State) :
  NoDup (rowKeys props) →
  isIndeterminate props (handleSelectAll props st).1 = false
  ∧ isAllSelected props (handleSelectAll props st).1
    = (0 <? length (data props))%nat
      && negb (size (selectedRows st) =? length (data props))%nat.
Proof.
  intros Hnodup. unfold isIndeterminate, isAllSelected.
  rewrite handleSelectAll_selectedRows.
  destruct (size (selectedRows st) =? length (data props))%nat.
  - rewrite size_empty. simpl. split; [done|].
    by destruct (length (data props)).
  - rewrite size_allKeys by done.
    rewrite Nat.ltb_irrefl, Nat.eqb_refl, !andb_false_r, andb_true_r.
    simpl. by rewrite andb_true_r.
Qed.

Lemma handleSelectAll_header_witness :
  isIndeterminate mockProps (handleSelectAll mockProps initialState).1 = false
  ∧ isAllSelected mockProps (handleSelectAll mockProps initialState).1
    = (0 <? length (data mockProps))%nat
      && negb (size (selectedRows initialState) =? length (data mockProps))%nat.
Proof. exact (handleSelectAll_header mockProps initialState NoDup_mockProps). Defined.

(** X9: on an empty data set select-all leaves the selection empty and
    emits the empty list, whatever was selected before, and the header
    checkbox is neither checked nor indeterminate before or after. *)
Theorem handleSelectAll_no_data (props : DataTableProps) (st : State) :
  data props = [] →
  handleSelectAll props st = (mkState (sortState st) ∅, emit props [])
  ∧ isAllSelected props st = false
  ∧ isIndeterminate props st = false.
Proof.
  intros Hdata. unfold isAllSelected, isIndeterminate, handleSelectAll.
  unfold allKeys, rowKeys. rewrite Hdata. simpl.
  split; [by case_match|]. split; [done|].
  apply andb_false_r.
Qed.

Lemma handleSelectAll_no_data_witness :
  handleSelectAll (tableOf []) (mkState initialSortState {[ VNumber 2 ]})
  = (mkState initialSortState ∅, Some []).
Proof.
  by destruct (handleSelectAll_no_data (tableOf [])
                 (mkState initialSortState {[ VNumber 2 ]}) eq_refl) as [-> _].
Defined.

(** * What the handlers emit *)

Lemma filterFrom_all {A : Type} (p : A → nat → bool) (l : list A) (index : nat) :
  (∀ offset x, l !! offset = Some x → p x (index + offset)%nat = true) →
  filterFrom p index l = l.
Proof.
  revert index. induction l as [|x l IH]; intros index Hall; simpl; [done|].
  rewrite <- (Nat.add_0_r index) at 1. rewrite (Hall 0%nat x eq_refl).
  f_equal. apply IH. intros offset y Hy.
  rewrite Nat.add_succ_l, <- Nat.add_succ_r. by apply Hall.
Qed.

Lemma filterFrom_none {A : Type} (p : A → nat → bool) (l : list A) (index : nat) :
  (∀ offset x, l !! offset = Some x → p x (index + offset)%nat = false) →
  filterFrom p index l = [].
Proof.
  revert index. induction l as [|x l IH]; intros index Hnone; simpl; [done|].
  rewrite <- (Nat.add_0_r index) at 1. rewrite (Hnone 0%nat x eq_refl).
  apply IH. intros offset y Hy.
  rewrite Nat.add_succ_l, <- Nat.add_succ_r. by apply Hnone.
Qed.

(** The rows of the data set whose identity is in a selection, in data
    order: what [handleRowSelect] computes as [selectedRecords]. *)
Lemma selectAll_materialized props :
  arrayFilter
    (λ record index, bool_decide (getRowKey props record index ∈ allKeys props))
    (data props)
  = data props.
Proof.
  apply filterFrom_all. intros offset x Hx. simpl.
  apply bool_decide_eq_true. apply elem_of_allKeys, elem_of_rowKeys. eauto.
Qed.

(** X10: each selection handler hands [onRowSelect] the rows of the data
    set whose identity is in the selection it stores, in data order; for
    select-all these are all rows or none. *)
Theorem emission_materializes_selection (props : DataTableProps) (st : State) :
  let materialize := λ st' : State,
    emit props
      (arrayFilter
         (λ record index,
            bool_decide (getRowKey props record index ∈ selectedRows st'))
         (data props)) in
  (∀ key record,
     (handleRowSelect props key record st).2
     = materialize (handleRowSelect props key record st).1)
  ∧ (handleSelectAll props st).2 = materialize (handleSelectAll props st).1.
Proof.
  intros materialize. subst materialize. split; [done|].
  unfold handleSelectAll. case_match; simpl; f_equal.
  - symmetry. apply filterFrom_none. intros offset x _.
    apply bool_decide_eq_false, not_elem_of_empty.
  - symmetry. apply selectAll_materialized.
Qed.

Lemma length_filterFrom_keys {A : Type} (f : A → nat → value)
    (selected : gset value) (l : list A) (index : nat) :
  length (filterFrom (λ x i, bool_decide (f x i ∈ selected)) index l)
  = length (filter (λ k, k ∈ selected) (imap (λ j x, f x (index + j)%nat) l)).
Proof.
  revert index. induction l as [|x l IH]; intros index; [done|].
  simpl filterFrom. rewrite imap_cons, Nat.add_0_r, filter_cons.
  assert (Hshift : imap ((λ j y, f y (index + j)%nat) ∘ S) l
                   = imap (λ j y, f y (S index + j)%nat) l).
  { apply imap_ext. intros j y _. simpl. f_equal. lia. }
  rewrite Hshift. specialize (IH (S index)).
  case_bool_decide; case_decide; try done; simpl; by rewrite IH.
Qed.

(** X11: with pairwise distinct row identities a row toggle emits as many
    rows as there are selected identities of the current data set; when
    every selected identity is one of the data set's, that is the size of
    the stored selection. *)
Theorem handleRowSelect_emits_count (props : DataTableProps) (key : value)
    (record : row) (st : State) (rows : list row) :
  NoDup (rowKeys props) →
  (handleRowSelect props key record st).2 = Some rows →
  let selected' := selectedRows (handleRowSelect props key record st).1 in
  length rows = size (selected' ∩ allKeys props)
  ∧ (selected' ⊆ allKeys props → length rows = size selected').
Proof.
  intros Hnodup Hemit selected'.
  assert (Hlen : length rows = size (selected' ∩ allKeys props)).
  { unfold handleRowSelect, emit in Hemit. simpl in Hemit.
    destruct (onRowSelect props); [|done]. injection Hemit as <-.
    unfold arrayFilter.
    rewrite (length_filterFrom_keys (getRowKey props)).
    fold (rowKeys props).
    rewrite <- (size_list_to_set (C:=gset value)) by by apply NoDup_filter.
    f_equal. apply set_eq. intros k.
    rewrite elem_of_list_to_set, list_elem_of_filter, elem_of_intersection,
      elem_of_allKeys.
    done. }
  split; [done|].
  intros Hsub. rewrite Hlen. f_equal. set_solver.
Qed.

Lemma handleRowSelect_emits_count_witness :
  length [user 2 "Jane Smith" 25]
  = size (selectedRows
            (handleRowSelect mockProps (VNumber 2) (user 2 "Jane Smith" 25)
               initialState).1
          ∩ allKeys mockProps).
Proof.
  assert (Hemit : (handleRowSelect mockProps (VNumber 2) (user 2 "Jane Smith" 25)
                     initialState).2 = Some [user 2 "Jane Smith" 25]).
  { by vm_compute. }
  by destruct (handleRowSelect_emits_count mockProps (VNumber 2)
                 (user 2 "Jane Smith" 25) initialState _ NoDup_mockProps Hemit).
Defined.

(** * Row identities *)

Lemma imap_index_only {A B : Type} (g : nat → B) (f : nat → A → B) (l : list A)
    (index : nat) :
  (∀ offset x, l !! offset = Some x → f offset x = g (index + offset)%nat) →
  imap f l = g <$> seq index (length l).
Proof.
  revert f index. induction l as [|x l IH]; intros f index Hf; [done|].
  rewrite imap_cons. simpl.
  rewrite (Hf 0%nat x eq_refl), Nat.add_0_r. f_equal.
  apply IH. intros offset y Hy. simpl.
  rewrite (Hf (S offset) y Hy). f_equal. lia.
Qed.

(** X12: when [rowKey] names a field and no row has a value in it, the row
    identities are the positions [0, 1, ..., n - 1]; they are pairwise
    distinct, so the data set has as many identities as rows. *)
Theorem rowKeys_positional (props : DataTableProps) (field : string) :
  rowKey props = RowKeyField field →
  Forall (λ record, isNullish (getField record field) = true) (data props) →
  rowKeys props = (λ index, VNumber (Z.of_nat index)) <$> seq 0 (length (data props))
  ∧ NoDup (rowKeys props)
  ∧ size (allKeys props) = length (data props).
Proof.
  intros Hfield Hnull.
  assert (Hkeys : rowKeys props
            = (λ index, VNumber (Z.of_nat index)) <$> seq 0 (length (data props))).
  { unfold rowKeys. apply imap_index_only. intros offset x Hx. simpl.
    unfold getRowKey. rewrite Hfield.
    rewrite Forall_forall in Hnull.
    assert (Hx' : isNullish (getField x field) = true).
    { apply Hnull. by eapply list_elem_of_lookup_2. }
    by destruct (getField x field). }
  assert (Hnodup : NoDup (rowKeys props)).
  { rewrite Hkeys. apply NoDup_fmap_2; [|apply NoDup_seq].
    intros i j [= Heq]. lia. }
  split; [done|]. split; [done|]. by apply size_allKeys.
Qed.

Lemma rowKeys_positional_witness :
  rowKeys (tableOf anonymousUsers) = [VNumber 0; VNumber 1; VNumber 2]
  ∧ NoDup (rowKeys (tableOf anonymousUsers)).
Proof.
  destruct (rowKeys_positional (tableOf anonymousUsers) "id" eq_refl)
    as (Hkeys & Hnodup & _).
  - repeat constructor.
  - split; [by rewrite Hkeys|done].
Defined.

Lemma getRowKey_own props (record : row) (index : nat) :
  hasOwnKey props record →
  getRowKey props record index = getRowKey props record 0.
Proof.
  unfold hasOwnKey, getRowKey. destruct (rowKey props) as [field|fn]; [|done].
  by destruct (getField record field).
Qed.

Lemma getRowKey_positional props field (record : row) (index : nat) :
  rowKey props = RowKeyField field →
  isNullish (getField record field) = true →
  getRowKey props record index = VNumber (Z.of_nat index).
Proof.
  intros Hfield Hnull. unfold getRowKey. rewrite Hfield.
  by destruct (getField record field).
Qed.

Lemma filterFrom_own props (selected : gset value) (l : list row) (index : nat) :
  Forall (hasOwnKey props) l →
  filterFrom (λ record i, bool_decide (getRowKey props record i ∈ selected)) index l
  = filter (λ record, getRowKey props record 0 ∈ selected) l.
Proof.
  intros Hown. revert index.
  induction Hown as [|x l Hx _ IH]; intros index; simpl; [done|].
  rewrite filter_cons, (getRowKey_own props x index Hx), IH.
  case_bool_decide; by case_decide.
Qed.

Lemma selected_views_own props st (l : list row) :
  viewRecord
    <$> filter (λ view, isSelected view = true)
          ((λ record, renderRow props st 0 record) <$> l)
  = filter (λ record, getRowKey props record 0 ∈ selectedRows st) l.
Proof.
  induction l as [|x l IH]; [done|].
  rewrite fmap_cons, !filter_cons. simpl isSelected.
  case_decide as Hsel; case_decide as Hin.
  - rewrite fmap_cons, IH. done.
  - by apply bool_decide_eq_true in Hsel.
  - exfalso. apply Hsel. by apply bool_decide_eq_true.
  - done.
Qed.

Section RenderedRows.

Variable sort : (row → row → JsNumber) → list row → list row.
Variable localeCompare : string → string → Z.
Variable toStr : value → string.
Hypothesis sort_conforming : ConformingSort sort.

(** X13: when every row has an identity of its own (a value in the
    [rowKey] field, or [rowKey] is a function), the keys the rows are
    rendered under are the identities of the data set whatever the sort
    state, so every row checkbox toggles the identity of a current row, and
    the rows rendered as selected are the rows a toggle emits for that
    selection. *)
Theorem renderRows_own_keys (props : DataTableProps) (st : State) :
  Forall (hasOwnKey props) (data props) →
  viewKey <$> renderRows sort localeCompare toStr props st ≡ₚ rowKeys props
  ∧ Forall (targetsCurrentRow props)
           (clickRowView <$> renderRows sort localeCompare toStr props st)
  ∧ viewRecord
      <$> filter (λ view, isSelected view = true)
            (renderRows sort localeCompare toStr props st)
    ≡ₚ arrayFilter
         (λ record index,
            bool_decide (getRowKey props record index ∈ selectedRows st))
         (data props).
Proof.
  intros Hown.
  pose proof (sortedData_Permutation sort localeCompare toStr sort_conforming props (sortState st))
    as Hperm.
  assert (Hown' : Forall (hasOwnKey props)
                    (sortedData sort localeCompare toStr props (sortState st))).
  { by rewrite Hperm. }
  assert (Hrender : renderRows sort localeCompare toStr props st
            = (λ record, renderRow props st 0 record)
                <$> sortedData sort localeCompare toStr props (sortState st)).
  { unfold renderRows. rewrite <- imap_const. apply imap_ext.
    intros index record Hlook. unfold renderRow, const.
    rewrite Forall_forall in Hown'.
    rewrite (getRowKey_own props record index); [done|].
    apply Hown'. by eapply list_elem_of_lookup_2. }
  assert (Hkeys : viewKey <$> renderRows sort localeCompare toStr props st
                  ≡ₚ rowKeys props).
  { rewrite Hrender, <- list_fmap_compose. unfold rowKeys.
    rewrite (imap_ext _ (const (λ record, getRowKey props record 0)) (data props)).
    - rewrite imap_const. by rewrite Hperm.
    - intros index record Hlook. unfold const.
      rewrite Forall_forall in Hown. apply getRowKey_own, Hown.
      by eapply list_elem_of_lookup_2. }
  split; [done|]. split.
  - rewrite Forall_fmap, Forall_forall. intros view Hview. simpl.
    rewrite <- Hkeys. apply list_elem_of_fmap. by exists view.
  - rewrite Hrender, selected_views_own. unfold arrayFilter.
    rewrite filterFrom_own by done. by rewrite Hperm.
Qed.

End RenderedRows.

Lemma renderRows_own_keys_witness :
  viewKey <$> renderRows arraySort codeUnitCompare primitiveToStr mockProps
                (mkState (sortAsc "age") ∅)
  ≡ₚ rowKeys mockProps.
Proof.
  destruct (renderRows_own_keys arraySort codeUnitCompare primitiveToStr
              arraySort_conforming mockProps
              (mkState (sortAsc "age") ∅)) as [Hkeys _]; [|done].
  repeat constructor.
Defined.

Lemma filterFrom_pick {A : Type} (p : A → nat → bool) (l : list A)
    (index target : nat) :
  (∀ offset x, l !! offset = Some x →
     p x (index + offset)%nat = bool_decide ((index + offset)%nat = target)) →
  filterFrom p index l
  = if decide (index ≤ target)%nat then option_list (l !! (target - index)%nat)
    else [].
Proof.
  revert index. induction l as [|x l IH]; intros index Hp; simpl.
  - by case_decide.
  - assert (Hx : p x index = bool_decide (index = target)).
    { pose proof (Hp 0%nat x eq_refl) as Hp0.
      by rewrite Nat.add_0_r in Hp0. }
    rewrite Hx, IH.
    + case_bool_decide as Heq.
      * subst target. rewrite decide_False by lia. rewrite decide_True by lia.
        by rewrite Nat.sub_diag.
      * destruct (decide (index ≤ target)%nat) as [Hle | Hgt].
        -- rewrite decide_True by lia.
           by replace (target - index)%nat with (S (target - S index)) by lia.
        -- by rewrite decide_False by lia.
    + intros offset y Hy.
      rewrite Nat.add_succ_l, <- Nat.add_succ_r. by apply Hp.
Qed.

Section PositionalRows.

Variable sort : (row → row → JsNumber) → list row → list row.
Variable localeCompare : string → string → Z.
Variable toStr : value → string.
Hypothesis sort_conforming : ConformingSort sort.

(** X14: when [rowKey] names a field and no row has a value in it, the row
    rendered at position [i] of the view is keyed [i] whatever record the
    sort put there, and ticking its checkbox with nothing selected emits
    the row at position [i] of the data set. *)
Theorem positional_row_click (props : DataTableProps) (st : State)
    (field : string) (i : nat) (view : RowView) :
  rowKey props = RowKeyField field →
  Forall (λ record, isNullish (getField record field) = true) (data props) →
  onRowSelect props = true →
  selectedRows st = ∅ →
  renderRows sort localeCompare toStr props st !! i = Some view →
  viewKey view = VNumber (Z.of_nat i)
  ∧ ∃ x, data props !! i = Some x
         ∧ (handleRowSelect props (viewKey view) (viewRecord view) st).2
           = Some [x].
Proof.
  intros Hfield Hnull Hcb Hempty Hview.
  rewrite Forall_forall in Hnull.
  pose proof (sortedData_Permutation sort localeCompare toStr sort_conforming props (sortState st))
    as Hperm.
  unfold renderRows in Hview. rewrite list_lookup_imap in Hview.
  destruct (sortedData sort localeCompare toStr props (sortState st) !! i)
    as [record|] eqn:Hrecord; [|done].
  injection Hview as <-. simpl.
  assert (Hin : record ∈ data props).
  { rewrite <- Hperm. by eapply list_elem_of_lookup_2. }
  rewrite (getRowKey_positional props field record i Hfield (Hnull _ Hin)).
  split; [done|].
  assert (Hlt : (i < length (data props))%nat).
  { rewrite <- Hperm. by eapply lookup_lt_Some. }
  destruct (lookup_lt_is_Some_2 _ _ Hlt) as [x Hx].
  exists x. split; [done|].
  unfold handleRowSelect, emit. simpl. rewrite Hcb, Hempty. f_equal.
  rewrite toggleKey_fresh by apply not_elem_of_empty.
  unfold arrayFilter. rewrite (filterFrom_pick _ _ 0 i).
  - rewrite decide_True by lia. by rewrite Nat.sub_0_r, Hx.
  - intros offset y Hy. simpl.
    rewrite (getRowKey_positional props field y offset Hfield).
    + apply bool_decide_ext. rewrite elem_of_union, elem_of_singleton.
      split.
      * intros [Hin' | [= Heq]]; [by apply not_elem_of_empty in Hin'|lia].
      * intros ->. by right.
    + apply Hnull. by eapply list_elem_of_lookup_2.
Qed.

End PositionalRows.

Lemma positional_row_click_witness :
  let props := tableOf anonymousUsers in
  let st := mkState (sortAsc "age") ∅ in
  ∃ view,
    renderRows arraySort codeUnitCompare primitiveToStr props st !! 0%nat = Some view
    ∧ viewRecord view = anonymous "Jane Smith" 25
    ∧ (handleRowSelect props (viewKey view) (viewRecord view) st).2
      = Some [anonymous "John Doe" 30].
Proof.
  intros props st.
  exists (mkRowView (VNumber 0) (anonymous "Jane Smith" 25) false).
  assert (Hview : renderRows arraySort codeUnitCompare primitiveToStr props st !! 0%nat
                  = Some (mkRowView (VNumber 0) (anonymous "Jane Smith" 25) false)).
  { by vm_compute. }
  split; [done|]. split; [done|].
  assert (Hnull : Forall (λ record, isNullish (getField record "id") = true)
                    (data props)).
  { repeat constructor. }
  destruct (positional_row_click arraySort codeUnitCompare primitiveToStr
              arraySort_conforming props st "id"
              0%nat _ eq_refl Hnull eq_refl eq_refl Hview) as (_ & x & Hx & Hemit).
  rewrite Hemit. f_equal. f_equal.
  change (data props !! 0%nat) with (Some (anonymous "John Doe" 30)) in Hx.
  congruence.
Defined.

(** * Sequences of toggles *)

Lemma toggleKey_comm (a b : value) (selected : gset value) :
  toggleKey a (toggleKey b selected) = toggleKey b (toggleKey a selected).
Proof.
  apply set_eq. intros k. rewrite !elem_of_toggleKey.
  destruct (decide (k = a)) as [Hka | Hka]; destruct (decide (k = b)) as [Hkb | Hkb];
    destruct (decide (a ∈ selected)); destruct (decide (b ∈ selected));
    subst; tauto.
Qed.

(** X15: two row toggles commute: toggling [a] then [b] stores the same
    selection and emits the same rows as toggling [b] then [a]. *)
Theorem handleRowSelect_comm (props : DataTableProps) (a b : value)
    (recordA recordB : row) (st : State) :
  handleRowSelect props b recordB (handleRowSelect props a recordA st).1
  = handleRowSelect props a recordA (handleRowSelect props b recordB st).1.
Proof.
  unfold handleRowSelect. simpl. by rewrite toggleKey_comm.
Qed.

Lemma step_toggle_parity props st ev (k : value) :
  ev ≠ ClickSelectAll →
  (k ∈ selectedRows (step props st ev)
   ↔ (k ∈ selectedRows st ↔ Nat.Even (toggleCount k [ev]))).
Proof.
  intros Hev. destruct ev as [column|key record|]; [| |done].
  - rewrite step_header_selectedRows. simpl.
    split; [intros Hk; split; [by exists 0%nat|done]|].
    intros Hiff. apply Hiff. by exists 0%nat.
  - rewrite step_ClickRow, handleRowSelect_selectedRows, elem_of_toggleKey.
    simpl. case_bool_decide as Heq.
    + subst key. assert (Hodd : ¬ Nat.Even 1).
      { intros [n Hn]. lia. }
      destruct (decide (k ∈ selectedRows st)); tauto.
    + assert (Heven : Nat.Even 0) by (by exists 0%nat).
      assert (k ≠ key) by congruence. tauto.
Qed.

Lemma toggleCount_cons (k : value) (ev : Event) (evs : list Event) :
  toggleCount k (ev :: evs) = (toggleCount k [ev] + toggleCount k evs)%nat.
Proof.
  destruct ev as [column|key record|]; simpl; [done| |done].
  by case_bool_decide.
Qed.

Lemma runWith_cons props st ev evs :
  runWith props st (ev :: evs) = runWith props (step props st ev) evs.
Proof. reflexivity. Qed.

(** X16: over any sequence of row toggles and header clicks on one data
    set, an identity ends up selected exactly when it was selected at the
    start and toggled an even number of times, or was not and toggled an
    odd number of times. *)
Theorem toggle_parity (props : DataTableProps) (evs : list Event) (st : State)
    (k : value) :
  ClickSelectAll ∉ evs →
  (k ∈ selectedRows (runWith props st evs)
   ↔ (k ∈ selectedRows st ↔ Nat.Even (toggleCount k evs))).
Proof.
  revert st. induction evs as [|ev evs IH]; intros st Hnone.
  - change (runWith props st []) with st. simpl toggleCount.
    assert (Heven : Nat.Even 0) by (by exists 0%nat). tauto.
  - rewrite runWith_cons, toggleCount_cons.
    rewrite IH by (intros Hin; apply Hnone; by right).
    rewrite step_toggle_parity by (intros ->; apply Hnone; left).
    rewrite <- !Nat.even_spec, Nat.even_add.
    destruct (decide (k ∈ selectedRows st));
      destruct (Nat.even (toggleCount k [ev]));
      destruct (Nat.even (toggleCount k evs)); simpl; intuition congruence.
Qed.

Lemma toggle_parity_witness :
  VNumber 1
  ∈ selectedRows
      (runWith mockProps initialState
         [ClickRow (VNumber 1) (user 1 "John Doe" 30); ClickHeader ageColumn;
          ClickRow (VNumber 2) (user 2 "Jane Smith" 25);
          ClickRow (VNumber 1) (user 1 "John Doe" 30);
          ClickRow (VNumber 1) (user 1 "John Doe" 30)])
  ↔ (VNumber 1 ∈ selectedRows initialState ↔ Nat.Even 3).
Proof.
  apply (toggle_parity mockProps
           [ClickRow (VNumber 1) (user 1 "John Doe" 30); ClickHeader ageColumn;
            ClickRow (VNumber 2) (user 2 "Jane Smith" 25);
            ClickRow (VNumber 1) (user 1 "John Doe" 30);
            ClickRow (VNumber 1) (user 1 "John Doe" 30)]
           initialState (VNumber 1)).
  rewrite !elem_of_cons, elem_of_nil. intros Hin.
  repeat destruct Hin as [Hin | Hin]; done.
Defined.

(** * Ascending against descending *)

Section Reverse.

Variable sort : (row → row → JsNumber) → list row → list row.
Variable localeCompare : string → string → Z.
Variable toStr : value → string.
Hypothesis sort_conforming : ConformingSort sort.

(** X17: when every row has a finite number in the sorted column, the
    column of the descending view reads as the column of the ascending
    view backwards (the rows themselves need not come in reverse order:
    rows with equal numbers keep their data order in both views). *)
Theorem sortedData_desc_reverses (props : DataTableProps)
    (stAsc stDesc : SortState.t) (column : Column.t) :
  sortsBy props stAsc column asc →
  sortsBy props stDesc column desc →
  Forall (λ record, ∃ n, cellOf column record = VNumber n) (data props) →
  numberCell column <$> sortedData sort localeCompare toStr props stDesc
  = reverse (numberCell column <$> sortedData sort localeCompare toStr props stAsc).
Proof.
  intros Hasc Hdesc Hcells.
  assert (Hnum : Forall (λ record, is_Some (numberCell column record)) (data props)).
  { eapply Forall_impl; [exact Hcells|].
    intros record [n Hn]. exists n. unfold numberCell. by rewrite Hn. }
  set (le := λ o1 o2 : option Z, ∃ n m, o1 = Some n ∧ o2 = Some m ∧ n ≤ m).
  pose proof (sortedData_numberLe sort localeCompare toStr sort_conforming
                props stAsc column asc Hasc Hnum) as HsortedA.
  pose proof (sortedData_numberLe sort localeCompare toStr sort_conforming
                props stDesc column desc Hdesc Hnum) as HsortedD.
  simpl in HsortedA, HsortedD.
  assert (HA : StronglySorted le
                 (numberCell column
                    <$> sortedData sort localeCompare toStr props stAsc)).
  { apply (StronglySorted_fmap (numberCell column) (numberLe column) le); [|done].
    intros a b Hab. exact Hab. }
  assert (HD : StronglySorted (flip le)
                 (numberCell column
                    <$> sortedData sort localeCompare toStr props stDesc)).
  { apply (StronglySorted_fmap (numberCell column) (flip (numberLe column)) (flip le));
      [|done].
    intros a b Hab. exact Hab. }
  apply StronglySorted_rev in HD.
  rewrite <- (reverse_involutive
                (numberCell column
                   <$> sortedData sort localeCompare toStr props stDesc)).
  f_equal.
  apply (StronglySorted_unique_strong le); [|done|done|].
  - intros o1 o2 _ _ (n & m & -> & -> & Hnm) (m' & n' & [= <-] & [= <-] & Hmn).
    f_equal. lia.
  - rewrite reverse_Permutation.
    by rewrite !(sortedData_Permutation sort localeCompare toStr sort_conforming
                   props).
Qed.

End Reverse.

Lemma sortedData_desc_reverses_witness :
  numberCell ageColumn
    <$> sortedData arraySort codeUnitCompare primitiveToStr (tableOf tiedUsers)
          (sortDesc "age")
  = reverse (numberCell ageColumn
               <$> sortedData arraySort codeUnitCompare primitiveToStr
                     (tableOf tiedUsers) (sortAsc "age")).
Proof.
  apply (sortedData_desc_reverses arraySort codeUnitCompare primitiveToStr
           arraySort_conforming (tableOf tiedUsers) (sortAsc "age")
           (sortDesc "age") ageColumn
           (sortsBy_age tiedUsers asc) (sortsBy_age tiedUsers desc)).
  repeat constructor; by eexists.
Defined.

(** * Input field *)

(** X18: the clear button and the password toggle are rendered only on an
    input that is neither disabled nor loading, so never beside the
    spinner; the clear button only on a non-empty value, for which the
    input reserves room on the right; the password toggle only on a
    password field. *)
Theorem input_buttons_need_enabled (props : InputField.Props) :
  (InputField.clearButtonShown props = true →
     InputField.inputDisabled props = false
     ∧ InputField.spinnerShown props = false
     ∧ InputField.value props ≠ ""
     ∧ InputField.paddedRight props = true)
  ∧ (InputField.passwordToggleShown props = true →
       InputField.inputDisabled props = false
       ∧ InputField.spinnerShown props = false
       ∧ InputField.type props = InputField.password)
  ∧ (InputField.inputDisabled props = true →
       InputField.clearButtonShown props = false
       ∧ InputField.passwordToggleShown props = false).
Proof.
  unfold InputField.clearButtonShown, InputField.passwordToggleShown,
    InputField.inputDisabled, InputField.spinnerShown, InputField.paddedRight,
    InputField.truthy.
  destruct (InputField.loading props), (InputField.disabled props),
    (InputField.showClearButton props), (InputField.showPasswordToggle props);
    simpl; repeat split; try done;
    try (case_bool_decide; done);
    try (intros Hshown; by apply andb_true_iff in Hshown as [? _]);
    try (intros Hshown; apply negb_true_iff, bool_decide_eq_false in Hshown; done);
    try (intros Hshown; by apply bool_decide_eq_true in Hshown);
    try (intros Hshown; apply andb_true_iff in Hshown as [Hshown _];
         by apply bool_decide_eq_true in Hshown);
    try (by rewrite andb_false_r).
Qed.

Lemma input_buttons_need_enabled_witness :
  InputField.inputDisabled
    (InputField.mkProps "secret" true None None false false InputField.password
       true true false) = false.
Proof.
  destruct (input_buttons_need_enabled
              (InputField.mkProps "secret" true None None false false
                 InputField.password true true false)) as (Hclear & _).
  by destruct (Hclear eq_refl).
Defined.

(** X19: the input is rendered with a type other than the [type] prop only
    for a password field whose password is shown, and then as text; the
    toggle changes the rendered type of a password field and toggling
    twice restores it. *)
Theorem password_reveal (props : InputField.Props) (st : InputField.State) :
  (InputField.inputType props st ≠ InputField.type props →
     InputField.type props = InputField.password
     ∧ InputField.showPassword st = true
     ∧ InputField.inputType props st = InputField.text)
  ∧ (InputField.type props = InputField.password →
       InputField.inputType props (InputField.togglePassword st)
       ≠ InputField.inputType props st)
  ∧ InputField.inputType props
      (InputField.togglePassword (InputField.togglePassword st))
    = InputField.inputType props st.
Proof.
  unfold InputField.inputType, InputField.togglePassword. simpl.
  split; [|split].
  - case_bool_decide as Htype; destruct (InputField.showPassword st); simpl; done.
  - intros Htype. rewrite bool_decide_eq_true_2 by done.
    destruct (InputField.showPassword st); simpl; rewrite Htype; done.
  - by rewrite negb_involutive.
Qed.

Lemma password_reveal_witness :
  InputField.inputType
    (InputField.mkProps "secret" true None None false false InputField.password
       false true false)
    (InputField.togglePassword (InputField.mkState false false))
  ≠ InputField.password.
Proof.
  destruct (password_reveal
              (InputField.mkProps "secret" true None None false false
                 InputField.password false true false)
              (InputField.mkState false false)) as (_ & Htoggle & _).
  by apply Htoggle.
Defined.

Lemma truthyOpt_Some (o : option string) :
  InputField.truthyOpt o = true ↔ ∃ s, o = Some s ∧ s ≠ "".
Proof.
  destruct o as [s|]; simpl.
  - unfold InputField.truthy. rewrite negb_true_iff, bool_decide_eq_false.
    split; [by exists s|]. by intros (s' & [= <-] & Hne).
  - split; [done|]. by intros (s & [=] & _).
Qed.

(** X20: the paragraph under the input is rendered exactly when the helper
    text or the error message is a non-empty string.  A non-empty error
    message is what it shows, in the error colour, whether or not there is
    a helper text; otherwise it shows the helper text, in the normal
    colour.  The text shown is never empty. *)
Theorem message_text (props : InputField.Props) :
  (InputField.message props = None
   ↔ InputField.truthyOpt (InputField.helperText props) = false
     ∧ InputField.truthyOpt (InputField.errorMessage props) = false)
  ∧ (InputField.truthyOpt (InputField.errorMessage props) = true →
       InputField.message props = Some (InputField.errorMessage props, true))
  ∧ (InputField.truthyOpt (InputField.errorMessage props) = false →
     InputField.truthyOpt (InputField.helperText props) = true →
       InputField.message props = Some (InputField.helperText props, false))
  ∧ (∀ text isError,
       InputField.message props = Some (text, isError) →
       ∃ s, text = Some s ∧ s ≠ ""
            ∧ (isError = true → InputField.errorMessage props = Some s)
            ∧ (isError = false → InputField.helperText props = Some s)).
Proof.
  unfold InputField.message, InputField.orElse.
  destruct (InputField.truthyOpt (InputField.helperText props)) eqn:Hhelper;
    destruct (InputField.truthyOpt (InputField.errorMessage props)) eqn:Herror;
    rewrite ?Hhelper, ?Herror.
  - apply truthyOpt_Some in Herror as (s & Hs & Hne).
    split; [split; [done|by intros [? ?]]|]. split; [done|]. split; [done|].
    intros text isError [= <- <-]. exists s. by rewrite Hs.
  - apply truthyOpt_Some in Hhelper as (s & Hs & Hne).
    split; [split; [done|by intros [? ?]]|]. split; [done|]. split; [done|].
    intros text isError [= <- <-]. exists s. by rewrite Hs.
  - apply truthyOpt_Some in Herror as (s & Hs & Hne).
    split; [split; [done|by intros [? ?]]|]. split; [done|]. split; [done|].
    intros text isError [= <- <-]. exists s. by rewrite Hs.
  - split; [done|]. split; [done|]. split; [done|]. by intros text isError.
Qed.

Lemma message_text_witness :
  InputField.message
    (InputField.mkProps "" true (Some "Your name") (Some "Required")
       false false InputField.text false false false)
  = Some (Some "Required", true).
Proof.
  destruct (message_text
              (InputField.mkProps "" true (Some "Your name") (Some "Required")
                 false false InputField.text false false false))
    as (_ & Herror & _).
  by apply Herror.
Defined.
